(** * @perkos/util-config: typed environment configuration

    A shallow embedding of [src/index.ts] and the properties of its
    functions.

    Conventions of the embedding:
    - An object used as a dictionary ([process.env], a price table, a flags
      object) is the finite map of its own properties; a property read
      [obj[key]] follows the prototype chain, so a key that is not an own
      property but names a member of [Object.prototype] reads as that
      member ([Inherited]), and any other key reads as [undefined]
      ([None]).
    - The entries of a schema and of a price map are those of an object
      written as a literal without computed keys, which has no own property
      [__proto__]; the key-by-key assignments of [createConfig] and
      [createPriceConfig] then create one property each.
    - A JavaScript number is an IEEE binary64 value, i.e. a primitive
      [float]; [isNaN] is [PrimFloat.is_nan].
    - A [throw] is the [Throw msg] completion, with the message of the
      error; the [TypeError] of a call of a missing method carries the
      wording of V8.
    - The ECMAScript built-ins [parseFloat] and [JSON.parse] are not part
      of the package: the code is written against the [Builtins]
      interface and every theorem holds for any implementation of it.
      Module [ES] gives a reference implementation used by the examples.
    - [validator] and [transform] callbacks are supplied by the caller:
      they receive the value read from the environment and either return
      or throw.
    - Strings are byte strings. *)

From Stdlib Require Import Floats Ascii.
From stdpp Require Import base option list strings gmap.

Set Warnings "-register-all,-clear-no-such-hyp".

(** ** JavaScript values and completions *)

(** [VInherited name] is the member [name] of [Object.prototype] (a native
    function, or [Object.prototype] itself for [__proto__]). *)
Inductive JsValue : Type :=
  | VUndefined
  | VNull
  | VBool (b : bool)
  | VNumber (n : float)
  | VString (s : string)
  | VArray (items : list JsValue)
  | VObject (members : list (string * JsValue))
  | VInherited (name : string).

(** The outcome of a call: a returned value or a thrown error with its
    message. *)
Inductive Completion (A : Type) : Type :=
  | Return (a : A)
  | Throw (message : string).
Arguments Return {A} a.
Arguments Throw {A} message.

Definition bindC {A B} (c : Completion A) (k : A → Completion B) : Completion B :=
  match c with
  | Return a => k a
  | Throw message => Throw message
  end.

Notation "x ←! c ; k" := (bindC c (λ x, k))
  (at level 100, c at next level, right associativity).

Definition returns {A} (c : Completion A) : Prop := ∃ a, c = Return a.
Definition throws {A} (c : Completion A) : Prop := ∃ message, c = Throw message.

(** The built-ins the package calls.  [JSON_parse] answers [None] where
    [JSON.parse] throws a [SyntaxError]. *)
Class Builtins : Type := {
  parseFloat : string → float;
  JSON_parse : string → option JsValue;
}.

(** [String.prototype.toLowerCase] on the ASCII letters.  Bytes above 127
    are left alone; no Unicode case mapping produces one of the letters of
    "true", so the comparisons below are not affected. *)
Definition lower_ascii (c : ascii) : ascii :=
  let n := nat_of_ascii c in
  if (65 <=? n)%nat && (n <=? 90)%nat then ascii_of_nat (n + 32) else c.

Fixpoint toLowerCase (s : string) : string :=
  match s with
  | EmptyString => EmptyString
  | String c rest => String (lower_ascii c) (toLowerCase rest)
  end.

(** ** Property reads *)

(** The properties every object inherits from [Object.prototype]. *)
Definition objectPrototypeNames : list string :=
  ["constructor"; "hasOwnProperty"; "isPrototypeOf"; "propertyIsEnumerable";
   "toLocaleString"; "toString"; "valueOf"; "__proto__";
   "__defineGetter__"; "__defineSetter__"; "__lookupGetter__"; "__lookupSetter__"].

Definition inherited (name : string) : bool :=
  bool_decide (name ∈ objectPrototypeNames).

(** What a property read yields when it is not [undefined]: the value of an
    own property, or a member of [Object.prototype]. *)
Inductive Read (A : Type) : Type :=
  | Own (a : A)
  | Inherited (name : string).
Arguments Own {A} a.
Arguments Inherited {A} name.

(** [obj[key]] *)
Definition getProperty {A} (obj : gmap string A) (key : string) : option (Read A) :=
  match obj !! key with
  | Some a => Some (Own a)
  | None => if inherited key then Some (Inherited key) else None
  end.

(** The environment, [process.env], and a value read from it. *)
Abbreviation Env := (gmap string string).
Abbreviation EnvValue := (Read string).


(** The error of [value.toLowerCase()] on a value without that method, and
    the same error where the variable is called [rawValue]. *)
Definition notAFunction : string := "value.toLowerCase is not a function".

Definition rawValueNotAFunction : string := "rawValue.toLowerCase is not a function".

(** [value.toLowerCase() === "true" || value === "1"] *)
Definition isTrueString (value : EnvValue) : Completion bool :=
  match value with
  | Own s => Return (String.eqb (toLowerCase s) "true" || String.eqb s "1")
  | Inherited _ => Throw notAFunction
  end.

(** ** Types of the package *)

Inductive VarType : Type := TString | TNumber | TBoolean | TJson.

(** [default?: string | number | boolean] *)
Inductive DefaultValue : Type :=
  | DString (s : string)
  | DNumber (n : float)
  | DBoolean (b : bool).

Definition default_value (d : DefaultValue) : JsValue :=
  match d with
  | DString s => VString s
  | DNumber n => VNumber n
  | DBoolean b => VBool b
  end.

Record EnvVarConfig : Type := {
  required : option bool;
  default : option DefaultValue;
  type : option VarType;
  validator : option (EnvValue → Completion bool);
  transform : option (EnvValue → Completion JsValue);
}.

(** [vars] lists the entries of the schema object in the order of
    [Object.entries]; the keys of an object are pairwise distinct. *)
Record EnvConfig : Type := {
  vars : list (string * EnvVarConfig);
  prefix : option string;
  strict : option bool;
}.

Record ConfigValidationResult : Type := {
  valid : bool;
  errors : list string;
  warnings : list string;
}.

(** Truthiness of an optional boolean field. *)
Definition truthy (b : option bool) : bool :=
  match b with Some true => true | _ => false end.

(** ** Environment variable utilities *)

Section Accessors.
Context `{Builtins}.
Variable env : Env.



(** Read through the own properties: for a key that reads as a member of
    [Object.prototype], [parseFloat] is applied to the text of a function
    or of an object, which is not a number, and the default is returned as
    for an unset variable. *)
Definition getEnvNumber (key : string) (defaultValue : option float) : option float :=
  match env !! key with
  | None => defaultValue
  | Some value =>
      let parsed := parseFloat value in
      if PrimFloat.is_nan parsed then defaultValue else Some parsed
  end.

Definition getEnvBoolean (key : string) (defaultValue : option bool)
  : Completion (option bool) :=
  match getProperty env key with
  | None => Return defaultValue
  | Some value => b ←! isTrueString value; Return (Some b)
  end.

(** Read through the own properties: the text of a member of
    [Object.prototype] is no JSON text, so the default is returned as for
    an unset variable. *)
Definition getEnvJson (key : string) (defaultValue : option JsValue) : option JsValue :=
  match env !! key with
  | None => defaultValue
  | Some value =>
      match JSON_parse value with
      | Some parsed => Some parsed
      | None => defaultValue
      end
  end.
End Accessors.

(** ** Configuration builder *)

Section Builder.
Context `{Builtins}.
Variable env : Env.

(** [config.prefix ? `${config.prefix}_` : ""]: an empty prefix is falsy
    and adds no separator. *)
Definition prefixOf (config : EnvConfig) : string :=
  match prefix config with
  | Some p => if String.eqb p "" then "" else p +:+ "_"
  | None => ""
  end.

Definition envKeyOf (config : EnvConfig) (key : string) : string :=
  prefixOf config +:+ key.

(** The test [rawValue === undefined || rawValue === ""] of both loops:
    [present rawValue] is the value read when the test is false, and [None]
    when the read gave [undefined] or the empty string. *)
Definition present (rawValue : option EnvValue) : option EnvValue :=
  match rawValue with
  | Some (Own value) => if String.eqb value "" then None else Some (Own value)
  | Some (Inherited name) => Some (Inherited name)
  | None => None
  end.

(** [varConfig.validator && !varConfig.validator(rawValue)] *)
Definition validatorRejects (varConfig : EnvVarConfig) (rawValue : EnvValue)
  : Completion bool :=
  match validator varConfig with
  | Some check => accepted ←! check rawValue; Return (negb accepted)
  | None => Return false
  end.

(** The [switch (varConfig.type)] of [createConfig] on a string. *)
Definition parseByType (envKey rawValue : string) (ty : option VarType)
  : Completion JsValue :=
  match ty with
  | Some TNumber =>
      let num := parseFloat rawValue in
      if PrimFloat.is_nan num
      then Throw ("Invalid number for environment variable " +:+ envKey)
      else Return (VNumber num)
  | Some TBoolean =>
      Return (VBool (String.eqb (toLowerCase rawValue) "true" || String.eqb rawValue "1"))
  | Some TJson =>
      match JSON_parse rawValue with
      | Some parsed => Return parsed
      | None => Throw ("Invalid JSON for environment variable " +:+ envKey)
      end
  | _ => Return (VString rawValue)
  end.

(** The same [switch] on a value read from the environment.  The text of a
    member of [Object.prototype] is neither a number nor JSON, and a member
    has no [toLowerCase]. *)
Definition parseValue (envKey : string) (rawValue : EnvValue) (ty : option VarType)
  : Completion JsValue :=
  match rawValue with
  | Own raw => parseByType envKey raw ty
  | Inherited name =>
      match ty with
      | Some TNumber => Throw ("Invalid number for environment variable " +:+ envKey)
      | Some TBoolean => Throw rawValueNotAFunction
      | Some TJson => Throw ("Invalid JSON for environment variable " +:+ envKey)
      | _ => Return (VInherited name)
      end
  end.

(** One iteration of the loop of [createConfig]: the value stored in
    [result[key]], or the error thrown.  Every path of the loop body that
    does not throw ends in exactly one assignment to [result[key]]. *)
Definition resolveVar (config : EnvConfig) (key : string) (varConfig : EnvVarConfig)
  : Completion JsValue :=
  let envKey := envKeyOf config key in
  match present (getProperty env envKey) with
  | None =>
      (* Handle missing values *)
      if truthy (required varConfig) && negb (bool_decide (strict config = Some false))
      then Throw ("Required environment variable " +:+ envKey +:+ " is not set")
      else match default varConfig with
           | Some d => Return (default_value d)
           | None => Return VUndefined
           end
  | Some rawValue =>
      (* Validate *)
      rejected ←! validatorRejects varConfig rawValue;
      if (rejected : bool)
      then Throw ("Invalid value for environment variable " +:+ envKey)
      else
        (* Transform or parse by type *)
        match transform varConfig with
        | Some f => f rawValue
        | None => parseValue envKey rawValue (type varConfig)
        end
  end.

(** [for (const [key, varConfig] of Object.entries(config.vars))] with the
    object [result] built so far; the first error aborts the loop. *)
Fixpoint createConfig_loop (config : EnvConfig) (entries : list (string * EnvVarConfig))
    (result : gmap string JsValue) : Completion (gmap string JsValue) :=
  match entries with
  | [] => Return result
  | (key, varConfig) :: rest =>
      value ←! resolveVar config key varConfig;
      createConfig_loop config rest (<[key := value]> result)
  end.

Definition createConfig (config : EnvConfig) : Completion (gmap string JsValue) :=
  createConfig_loop config (vars config) ∅.

(** [isNaN(parseFloat(rawValue))] *)
Definition notANumber (rawValue : EnvValue) : bool :=
  match rawValue with
  | Own raw => PrimFloat.is_nan (parseFloat raw)
  | Inherited _ => true
  end.

(** Whether [JSON.parse(rawValue)] throws. *)
Definition notJson (rawValue : EnvValue) : bool :=
  match rawValue with
  | Own raw => match JSON_parse raw with Some _ => false | None => true end
  | Inherited _ => true
  end.

(** The loop of [validateConfig], with the two arrays it pushes to.  Only
    the call of [JSON.parse] is guarded: an error of the validator leaves
    the function. *)
Fixpoint validateConfig_loop (config : EnvConfig) (entries : list (string * EnvVarConfig))
    (errors warnings : list string) : Completion (list string * list string) :=
  match entries with
  | [] => Return (errors, warnings)
  | (key, varConfig) :: rest =>
      let envKey := envKeyOf config key in
      match present (getProperty env envKey) with
      | None =>
          if truthy (required varConfig)
          then validateConfig_loop config rest (errors ++ ["Missing required: " +:+ envKey]) warnings
          else match default varConfig with
               | None =>
                   validateConfig_loop config rest errors
                     (warnings ++ ["Optional not set: " +:+ envKey])
               | Some _ => validateConfig_loop config rest errors warnings
               end
      | Some rawValue =>
          rejected ←! validatorRejects varConfig rawValue;
          let errors1 :=
            if (rejected : bool)
            then errors ++ ["Invalid value: " +:+ envKey] else errors in
          let errors2 :=
            match type varConfig with
            | Some TNumber =>
                if notANumber rawValue
                then errors1 ++ ["Invalid number: " +:+ envKey] else errors1
            | _ => errors1
            end in
          let errors3 :=
            match type varConfig with
            | Some TJson =>
                if notJson rawValue
                then errors2 ++ ["Invalid JSON: " +:+ envKey] else errors2
            | _ => errors2
            end in
          validateConfig_loop config rest errors3 warnings
      end
  end.

Definition validateConfig (config : EnvConfig) : Completion ConfigValidationResult :=
  report ←! validateConfig_loop config (vars config) [] [];
  Return {| valid := Nat.eqb (length report.1) 0;
            errors := report.1;
            warnings := report.2 |}.
End Builder.

(** ** Route configuration *)

Abbreviation PriceConfig := (gmap string float).

(** The element type of the [routes] argument; [path] and [description]
    carry a prefix to keep them apart from the fields of [RouteConfig]. *)
Record Route : Type := {
  route_path : string;
  priceKey : string;
  route_description : option string;
}.

(** [price] is declared a number; it holds what [prices[priceKey] || 0]
    evaluates to, which is a member of [Object.prototype] for a key that
    reads as one. *)
Record RouteConfig : Type := {
  path : string;
  price : Read float;
  description : option string;
  rateLimit : option float;
}.

(** [x || 0] on a property read: [undefined], [NaN], [0] and [-0] are
    falsy, a member of [Object.prototype] is truthy. *)
Definition orZero (x : option (Read float)) : Read float :=
  match x with
  | Some (Own p) => if PrimFloat.is_nan p || PrimFloat.is_zero p then Own 0%float else Own p
  | Some (Inherited name) => Inherited name
  | None => Own 0%float
  end.

Definition routeEntry (prices : PriceConfig) (route : Route) : RouteConfig :=
  {| path := route_path route;
     price := orZero (getProperty prices (priceKey route));
     description := route_description route;
     rateLimit := None |}.

(** The object built by [createRouteMapping]: its own properties, and the
    route entry that an assignment to [__proto__] has made its prototype,
    if any. *)
Record RouteTable : Type := {
  ownRoutes : gmap string RouteConfig;
  prototype : option RouteConfig;
}.

(** [result[p] = entry]: the key [__proto__] sets the prototype and creates
    no property. *)
Definition assignRoute (p : string) (entry : RouteConfig) (result : RouteTable) : RouteTable :=
  if String.eqb p "__proto__"
  then {| ownRoutes := ownRoutes result; prototype := Some entry |}
  else {| ownRoutes := <[p := entry]> (ownRoutes result); prototype := prototype result |}.

Fixpoint createRouteMapping_loop (routes : list Route) (prices : PriceConfig)
    (result : RouteTable) : RouteTable :=
  match routes with
  | [] => result
  | route :: rest =>
      createRouteMapping_loop rest prices
        (assignRoute (route_path route) (routeEntry prices route) result)
  end.

Definition createRouteMapping (routes : list Route) (prices : PriceConfig) : RouteTable :=
  createRouteMapping_loop routes prices {| ownRoutes := ∅; prototype := None |}.

(** [routes[path]?.price].  Beside the own properties only [__proto__] can
    read as an object with a price, the route entry made the prototype:
    the members of [Object.prototype] and the fields of that entry have no
    property [price]. *)
Definition getRoutePrice (routes : RouteTable) (p : string) : option (Read float) :=
  match ownRoutes routes !! p with
  | Some entry => Some (price entry)
  | None => if String.eqb p "__proto__" then price <$> prototype routes else None
  end.

(** ** Service discovery configuration *)

Inductive Method : Type := GET | POST | PUT | DELETE | PATCH.

Module EndpointInfo.
Record t : Type := {
  path : string;
  method : Method;
  description : option string;
  price : option float;
  rateLimit : option float;
}.
End EndpointInfo.

Module ServiceInfo.
Record t : Type := {
  name : string;
  version : string;
  description : option string;
  capabilities : option (list string);
  endpoints : option (gmap string EndpointInfo.t);
}.
End ServiceInfo.

(** [{ ...info, capabilities: info.capabilities || [], endpoints:
    info.endpoints || {} }]: an array and an object are truthy, also when
    empty, so only an absent field is replaced. *)
Definition createServiceInfo (info : ServiceInfo.t) : ServiceInfo.t :=
  {| ServiceInfo.name := ServiceInfo.name info;
     ServiceInfo.version := ServiceInfo.version info;
     ServiceInfo.description := ServiceInfo.description info;
     ServiceInfo.capabilities :=
       Some match ServiceInfo.capabilities info with
            | Some given => given
            | None => []
            end;
     ServiceInfo.endpoints :=
       Some match ServiceInfo.endpoints info with
            | Some given => given
            | None => ∅
            end |}.

(** ** Price configuration *)

(** The element type [{ envKey: string; default: number }] of a price map. *)
Module PriceSource.
Record t : Type := {
  envKey : string;
  default : float;
}.
End PriceSource.

Section Prices.
Context `{Builtins}.

(** [if (!envVar) return fallback]: [undefined] and the empty string are
    falsy. *)
Definition parsePrice (envVar : option string) (fallback : float) : float :=
  match envVar with
  | None => fallback
  | Some raw =>
      if String.eqb raw "" then fallback
      else
        let parsed := parseFloat raw in
        if PrimFloat.is_nan parsed then fallback else parsed
  end.

Variable env : Env.


End Prices.

(** ** Feature flags *)

Abbreviation FeatureFlags := (gmap string bool).

(** The element type [{ envKey: string; default: boolean }] of a flag map. *)
Module FlagSource.
Record t : Type := {
  envKey : string;
  default : bool;
}.
End FlagSource.

Section Flags.
Variable env : Env.

(** The value stored for one flag, or the error of [value.toLowerCase()]. *)
Definition flagValue (config : FlagSource.t) : Completion bool :=
  match getProperty env (FlagSource.envKey config) with
  | Some value => isTrueString value
  | None => Return (FlagSource.default config)
  end.

(** [result[key] = enabled]: the key [__proto__] is the accessor of
    [Object.prototype], which ignores a boolean and creates no property. *)
Definition assignFlag (key : string) (enabled : bool) (result : FeatureFlags)
  : FeatureFlags :=
  if String.eqb key "__proto__" then result else <[key := enabled]> result.

Fixpoint createFeatureFlags_loop (entries : list (string * FlagSource.t))
    (result : FeatureFlags) : Completion FeatureFlags :=
  match entries with
  | [] => Return result
  | (key, config) :: rest =>
      enabled ←! flagValue config;
      createFeatureFlags_loop rest (assignFlag key enabled result)
  end.

Definition createFeatureFlags (flags : list (string * FlagSource.t))
  : Completion FeatureFlags :=
  createFeatureFlags_loop flags ∅.
End Flags.

(** [flags[feature] ?? false] *)
Definition isFeatureEnabled (flags : FeatureFlags) (feature : string) : Read bool :=
  match getProperty flags feature with
  | Some enabled => enabled
  | None => Own false
  end.

(** ** Loops that fill an object key by key *)


(** ** Vocabulary of the properties *)

Section Vocabulary.
Context `{Builtins}.
Variable env : Env.

(** What one schema entry adds to [errors] and [warnings] in
    [validateConfig], or the error its validator throws. *)
Definition entryReport (config : EnvConfig) (entry : string * EnvVarConfig)
  : Completion (list string * list string) :=
  let '(key, varConfig) := entry in
  let envKey := envKeyOf config key in
  match present (getProperty env envKey) with
  | None =>
      if truthy (required varConfig) then Return (["Missing required: " +:+ envKey], [])
      else match default varConfig with
           | None => Return ([], ["Optional not set: " +:+ envKey])
           | Some _ => Return ([], [])
           end
  | Some rawValue =>
      rejected ←! validatorRejects varConfig rawValue;
      Return
        ((if (rejected : bool) then ["Invalid value: " +:+ envKey] else [])
         ++ match type varConfig with
            | Some TNumber =>
                if notANumber rawValue then ["Invalid number: " +:+ envKey] else []
            | Some TJson =>
                if notJson rawValue then ["Invalid JSON: " +:+ envKey] else []
            | _ => []
            end,
         [])
  end.

(** The reports of the entries in schema order, up to the first validator
    that throws. *)
Fixpoint reports (config : EnvConfig) (entries : list (string * EnvVarConfig))
  : Completion (list string * list string) :=
  match entries with
  | [] => Return ([], [])
  | entry :: rest =>
      first ←! entryReport config entry;
      others ←! reports config rest;
      Return (first.1 ++ others.1, first.2 ++ others.2)
  end.

(** No validator of the schema throws on the value its variable has. *)
Definition validatorsReturn (config : EnvConfig) : Prop :=
  ∀ key varConfig rawValue,
    (key, varConfig) ∈ vars config →
    present (getProperty env (envKeyOf config key)) = Some rawValue →
    returns (validatorRejects varConfig rawValue).

(** No transform of the schema throws on the value its variable has. *)
Definition transformsReturn (config : EnvConfig) : Prop :=
  ∀ key varConfig f rawValue,
    (key, varConfig) ∈ vars config →
    transform varConfig = Some f →
    present (getProperty env (envKeyOf config key)) = Some rawValue →
    returns (f rawValue).

(** No rule of type boolean without a transform reads a member of
    [Object.prototype], which has no [toLowerCase]. *)
Definition booleansAreStrings (config : EnvConfig) : Prop :=
  ∀ key varConfig name,
    (key, varConfig) ∈ vars config →
    transform varConfig = None →
    type varConfig = Some TBoolean →
    present (getProperty env (envKeyOf config key)) ≠ Some (Inherited name).


End Vocabulary.

(** A variable counts as missing when it is set to the empty string, or is
    unset and its name does not read as a member of [Object.prototype]. *)
Definition missing (env : Env) (name : string) : Prop :=
  env !! name = Some "" ∨ (env !! name = None ∧ inherited name = false).


(** The schema is the entry list of an object: no key occurs twice. *)
Definition wellFormed (config : EnvConfig) : Prop := NoDup (vars config).*1.

(** The value stored for a key whose variable is missing and whose absence
    is not fatal. *)
Definition defaultOrUndefined (varConfig : EnvVarConfig) : JsValue :=
  match default varConfig with
  | Some d => default_value d
  | None => VUndefined
  end.

(** ** Reference implementation of the built-ins

    A model of ECMAScript's [parseFloat] and [JSON.parse] on byte strings
    (UTF-8), used to run the package on concrete inputs; the theorems do
    not depend on this module. *)

Module ES.

Definition code (c : ascii) : nat := nat_of_ascii c.

Definition is_digit (c : ascii) : bool := (48 <=? code c)%nat && (code c <=? 57)%nat.

Definition digit_value (c : ascii) : Z := Z.of_nat (code c) - 48.

(** The longest run of decimal digits at the head of [s], accumulated in
    base ten onto [acc]; also the number of digits read and the rest. *)
Fixpoint digits (s : string) (acc : Z) (count : nat) : Z * nat * string :=
  match s with
  | String c rest =>
      if is_digit c then digits rest (10 * acc + digit_value c)%Z (S count)
      else (acc, count, s)
  | EmptyString => (acc, count, s)
  end.

(** The binary64 value nearest to [m * 10 ^ e] (ties to even), [m >= 0].
    Outside the range of decimal exponents that can matter the result is
    decided without computing the power. *)
Definition of_decimal (neg : bool) (m e : Z) : float :=
  if (m =? 0)%Z then (if neg then PrimFloat.neg_zero else PrimFloat.zero)
  else if (400 <? e)%Z then (if neg then PrimFloat.neg_infinity else PrimFloat.infinity)
  else if (e + Z.log2 m <? -1200)%Z then (if neg then PrimFloat.neg_zero else PrimFloat.zero)
  else
    let sm := if neg then (- m)%Z else m in
    if (0 <=? e)%Z then SF2Prim (binary_normalize prec emax (sm * 10 ^ e) 0 neg)
    else
      let d := (10 ^ (- e))%Z in
      let k := Z.max 0 (66 + Z.log2 d - Z.log2 m) in
      let q := (m * 2 ^ k / d)%Z in
      let sticky := if (m * 2 ^ k mod d =? 0)%Z then 0%Z else 1%Z in
      let mant := (2 * q + sticky)%Z in
      SF2Prim (binary_normalize prec emax (if neg then - mant else mant) (- k - 1) neg).

Definition is_exponent_indicator (c : ascii) : bool :=
  (code c =? 101)%nat || (code c =? 69)%nat.

(** An optional ExponentPart at the head of [s]: its value and the rest;
    an indicator that no digit follows is not part of the literal. *)
Definition exponent_part (s : string) : Z * string :=
  match s with
  | String c rest =>
      if is_exponent_indicator c then
        let '(neg, body) :=
          match rest with
          | String "-" r => (true, r)
          | String "+" r => (false, r)
          | _ => (false, rest)
          end in
        let '(v, n, rest') := digits body 0 0 in
        match n with
        | O => (0%Z, s)
        | _ => ((if neg then - v else v)%Z, rest')
        end
      else (0%Z, s)
  | EmptyString => (0%Z, s)
  end.

(** The number of bytes of the white space or line terminator character
    at the head of [s] in UTF-8, 0 when there is none: the ASCII ones,
    U+00A0, U+1680, U+2000 to U+200A, U+2028, U+2029, U+202F, U+205F, U+3000
    and U+FEFF. *)
Definition white_space_bytes (s : string) : nat :=
  match s with
  | String a rest =>
      if ((9 <=? code a)%nat && (code a <=? 13)%nat) || (code a =? 32)%nat then 1%nat
      else
        match rest with
        | String b rest' =>
            if (code a =? 194)%nat && (code b =? 160)%nat then 2%nat
            else
              match rest' with
              | String c _ =>
                  let utf8 x y z := (code a =? x)%nat && (code b =? y)%nat && (code c =? z)%nat in
                  if utf8 225 154 128 || utf8 226 129 159 || utf8 227 128 128 || utf8 239 187 191
                     || ((code a =? 226)%nat && (code b =? 128)%nat
                         && ((128 <=? code c)%nat && (code c <=? 138)%nat
                             || (code c =? 168)%nat || (code c =? 169)%nat
                             || (code c =? 175)%nat))
                  then 3%nat else 0%nat
              | EmptyString => 0%nat
              end
        | EmptyString => 0%nat
        end
  | EmptyString => 0%nat
  end.

Fixpoint trimStart (s : string) : string :=
  match s with
  | String _ rest =>
      match white_space_bytes s with
      | 1 => trimStart rest
      | 2 => match rest with String _ r => trimStart r | _ => s end
      | 3 => match rest with String _ (String _ r) => trimStart r | _ => s end
      | _ => s
      end
  | EmptyString => s
  end.

(** StrUnsignedDecimalLiteral: the longest prefix of [s] that is one. *)
Definition unsigned_literal (neg : bool) (s : string) : float :=
  if String.prefix "Infinity" s then (if neg then PrimFloat.neg_infinity else PrimFloat.infinity)
  else
    let '(ip, ni, r1) := digits s 0 0 in
    let '(m, nf, r2) :=
      match r1 with
      | String "." r => digits r ip 0
      | _ => (ip, O, r1)
      end in
    match ni, nf with
    | O, O => PrimFloat.nan
    | _, _ =>
        let '(ex, _) := exponent_part r2 in
        of_decimal neg m (ex - Z.of_nat nf)
    end.

Definition parseFloat (s : string) : float :=
  match trimStart s with
  | String "-" rest => unsigned_literal true rest
  | String "+" rest => unsigned_literal false rest
  | trimmed => unsigned_literal false trimmed
  end.

(** *** JSON.parse *)

(** JSON white space: tab, line feed, carriage return, space. *)
Definition is_json_space (c : ascii) : bool :=
  (code c =? 9)%nat || (code c =? 10)%nat || (code c =? 13)%nat || (code c =? 32)%nat.

Fixpoint skip_ws (s : string) : string :=
  match s with
  | String c rest => if is_json_space c then skip_ws rest else s
  | EmptyString => s
  end.

Fixpoint drop_chars (n : nat) (s : string) : string :=
  match n, s with
  | S n', String _ rest => drop_chars n' rest
  | _, _ => s
  end.

(** [keyword w v s]: the literal [w] at the head of [s]. *)
Definition keyword (w : string) (v : JsValue) (s : string) : option (JsValue * string) :=
  if String.prefix w s then Some (v, drop_chars (String.length w) s) else None.

(** JSON number: an optional minus sign, an integer part without leading
    zero, an optional fraction and an optional exponent, the last two with
    at least one digit each. *)
Definition json_number (s : string) : option (JsValue * string) :=
  let '(neg, body) :=
    match s with
    | String "-" r => (true, r)
    | _ => (false, s)
    end in
  let int_part :=
    match body with
    | String "0" r => Some (0%Z, r)
    | _ => let '(v, n, r) := digits body 0 0 in
           match n with O => None | _ => Some (v, r) end
    end in
  match int_part with
  | None => None
  | Some (ip, r1) =>
      let frac :=
        match r1 with
        | String "." r =>
            let '(m, nf, r2) := digits r ip 0 in
            match nf with O => None | _ => Some (m, nf, r2) end
        | _ => Some (ip, O, r1)
        end in
      match frac with
      | None => None
      | Some (m, nf, r2) =>
          (* an exponent indicator that no digit follows is left in the
             rest, where no JSON text can continue with it *)
          let '(ex, r3) := exponent_part r2 in
          Some (VNumber (of_decimal neg m (ex - Z.of_nat nf)), r3)
      end
  end.

Definition hex_value (c : ascii) : option N :=
  let n := code c in
  if is_digit c then Some (N.of_nat (n - 48))
  else if (65 <=? n)%nat && (n <=? 70)%nat then Some (N.of_nat (n - 55))
  else if (97 <=? n)%nat && (n <=? 102)%nat then Some (N.of_nat (n - 87))
  else None.

(** The four hexadecimal digits of a [\uXXXX] escape. *)
Definition hex4 (s : string) : option (N * string) :=
  match s with
  | String a (String b (String c (String d rest))) =>
      match hex_value a, hex_value b, hex_value c, hex_value d with
      | Some x, Some y, Some z, Some w => Some (((x * 16 + y) * 16 + z) * 16 + w, rest)%N
      | _, _, _, _ => None
      end
  | _ => None
  end.

(** A string body is read as source bytes and escaped UTF-16 code units. *)
Inductive piece : Type :=
  | Raw (c : ascii)
  | Unit16 (u : N).

Fixpoint string_body (s : string) : option (list piece * string) :=
  match s with
  | EmptyString => None
  | String c rest =>
      if (code c =? 34)%nat then Some ([], rest)
      else if (code c <? 32)%nat then None
      else if (code c =? 92)%nat then
        match rest with
        | String e rest' =>
            let simple (u : N) :=
              match string_body rest' with
              | Some (ps, r) => Some (Unit16 u :: ps, r)
              | None => None
              end in
            if (code e =? 34)%nat then simple 34%N
            else if (code e =? 92)%nat then simple 92%N
            else if (code e =? 47)%nat then simple 47%N
            else if (code e =? 98)%nat then simple 8%N
            else if (code e =? 102)%nat then simple 12%N
            else if (code e =? 110)%nat then simple 10%N
            else if (code e =? 114)%nat then simple 13%N
            else if (code e =? 116)%nat then simple 9%N
            else if (code e =? 117)%nat then
              match rest' with
              | String a (String b (String c' (String d rest''))) =>
                  match hex4 rest', string_body rest'' with
                  | Some (u, _), Some (ps, r) => Some (Unit16 u :: ps, r)
                  | _, _ => None
                  end
              | _ => None
              end
            else None
        | EmptyString => None
        end
      else
        match string_body rest with
        | Some (ps, r) => Some (Raw c :: ps, r)
        | None => None
        end
  end.

Definition byte (n : N) : ascii := ascii_of_N n.

(** UTF-8 bytes of a code point (a lone surrogate is written as three
    bytes, like any other code point below 65536). *)
Definition utf8 (cp : N) : list ascii :=
  if (cp <? 128)%N then [byte cp]
  else if (cp <? 2048)%N then [byte (192 + cp / 64); byte (128 + cp mod 64)]
  else if (cp <? 65536)%N then
    [byte (224 + cp / 4096); byte (128 + (cp / 64) mod 64); byte (128 + cp mod 64)]
  else
    [byte (240 + cp / 262144); byte (128 + (cp / 4096) mod 64);
     byte (128 + (cp / 64) mod 64); byte (128 + cp mod 64)].

Definition is_high (u : N) : bool := (55296 <=? u)%N && (u <=? 56319)%N.
Definition is_low (u : N) : bool := (56320 <=? u)%N && (u <=? 57343)%N.

Fixpoint encode (ps : list piece) : list ascii :=
  match ps with
  | [] => []
  | Raw c :: rest => c :: encode rest
  | Unit16 hi :: rest =>
      match rest with
      | Unit16 lo :: rest' =>
          if is_high hi && is_low lo
          then utf8 (65536 + (hi - 55296) * 1024 + (lo - 56320)) ++ encode rest'
          else utf8 hi ++ encode rest
      | _ => utf8 hi ++ encode rest
      end
  end.

Definition json_string (s : string) : option (string * string) :=
  match string_body s with
  | Some (ps, rest) => Some (String.string_of_list_ascii (encode ps), rest)
  | None => None
  end.

(** [object[key] = v] on the members parsed so far: a repeated key keeps its
    place and takes the later value. *)
Fixpoint setMember (key : string) (v : JsValue) (members : list (string * JsValue))
  : list (string * JsValue) :=
  match members with
  | [] => [(key, v)]
  | (k, w) :: rest =>
      if String.eqb k key then (k, v) :: rest else (k, w) :: setMember key v rest
  end.

Definition objectOf (members : list (string * JsValue)) : JsValue :=
  VObject (fold_left (λ acc member, setMember member.1 member.2 acc) members []).

(** Recursive descent; [fuel] bounds the depth of the calls, each of which
    consumes at least one character before the next. *)
Fixpoint json_value (fuel : nat) (s : string) : option (JsValue * string) :=
  match fuel with
  | O => None
  | S fuel' =>
      match skip_ws s with
      | EmptyString => None
      | String c rest as s' =>
          if (code c =? 110)%nat then keyword "null" VNull s'
          else if (code c =? 116)%nat then keyword "true" (VBool true) s'
          else if (code c =? 102)%nat then keyword "false" (VBool false) s'
          else if (code c =? 34)%nat then
            match json_string rest with
            | Some (str, r) => Some (VString str, r)
            | None => None
            end
          else if (code c =? 91)%nat then
            match skip_ws rest with
            | String "]" r => Some (VArray [], r)
            | _ =>
                match json_elements fuel' rest with
                | Some (items, r) => Some (VArray items, r)
                | None => None
                end
            end
          else if (code c =? 123)%nat then
            match skip_ws rest with
            | String "}" r => Some (VObject [], r)
            | _ =>
                match json_members fuel' rest with
                | Some (members, r) => Some (objectOf members, r)
                | None => None
                end
            end
          else json_number s'
      end
  end
with json_elements (fuel : nat) (s : string) : option (list JsValue * string) :=
  match fuel with
  | O => None
  | S fuel' =>
      match json_value fuel' s with
      | Some (v, r) =>
          match skip_ws r with
          | String "," r' =>
              match json_elements fuel' r' with
              | Some (vs, r'') => Some (v :: vs, r'')
              | None => None
              end
          | String "]" r' => Some ([v], r')
          | _ => None
          end
      | None => None
      end
  end
with json_members (fuel : nat) (s : string) : option (list (string * JsValue) * string) :=
  match fuel with
  | O => None
  | S fuel' =>
      match skip_ws s with
      | String c rest =>
          if (code c =? 34)%nat then
            match json_string rest with
            | Some (key, r) =>
                match skip_ws r with
                | String ":" r1 =>
                    match json_value fuel' r1 with
                    | Some (v, r2) =>
                        match skip_ws r2 with
                        | String "," r3 =>
                            match json_members fuel' r3 with
                            | Some (ms, r4) => Some ((key, v) :: ms, r4)
                            | None => None
                            end
                        | String "}" r3 => Some ([(key, v)], r3)
                        | _ => None
                        end
                    | None => None
                    end
                | _ => None
                end
            | None => None
            end
          else None
      | EmptyString => None
      end
  end.

(** The whole text must be one JSON value between optional white space. *)
Definition JSON_parse (s : string) : option JsValue :=
  match json_value (2 * String.length s + 2) s with
  | Some (v, rest) =>
      match skip_ws rest with
      | EmptyString => Some v
      | _ => None
      end
  | None => None
  end.

#[export] Instance builtins : Builtins :=
  Build_Builtins parseFloat JSON_parse.
End ES.

(** ** Sample schemas *)

Module Samples.
(** The rule [{}]. *)
Definition plain : EnvVarConfig :=
  {| required := None; default := None; type := None; validator := None;
     transform := None |}.

Definition API_KEY : EnvVarConfig :=
  {| required := Some true; default := None; type := Some TString; validator := None;
     transform := None |}.

Definition PORT : EnvVarConfig :=
  {| required := None; default := Some (DNumber 3000); type := Some TNumber;
     validator := None; transform := None |}.

Definition DEBUG : EnvVarConfig :=
  {| required := None; default := Some (DBoolean false); type := Some TBoolean;
     validator := None; transform := None |}.

(** [(v) => ["mainnet", "testnet"].includes(v)] *)
Definition isNetwork (value : EnvValue) : Completion bool :=
  match value with
  | Own v => Return (bool_decide (v ∈ ["mainnet"; "testnet"]))
  | Inherited _ => Return false
  end.

Definition NETWORK : EnvVarConfig :=
  {| required := Some true; default := None; type := None;
     validator := Some isNetwork; transform := None |}.

(** The schema of the package documentation (without its JSON entry). *)
Definition app : EnvConfig :=
  {| vars := [("API_KEY", API_KEY); ("PORT", PORT); ("DEBUG", DEBUG); ("NETWORK", NETWORK)];
     prefix := Some "APP";
     strict := Some true |}.


Definition appEnv : Env :=
  {[ "APP_API_KEY" := "secret"; "APP_PORT" := "8080"; "APP_DEBUG" := "TRUE";
     "APP_NETWORK" := "testnet" ]}.

(** [{ PORT: { type: "number" } }] *)
Definition typedPort : EnvVarConfig :=
  {| required := None; default := None; type := Some TNumber; validator := None;
     transform := None |}.

Definition portOnly : EnvConfig :=
  {| vars := [("PORT", typedPort)]; prefix := None; strict := None |}.






(** [(v) => { if (!/^[0-9]+$/.test(v)) throw new Error("digits expected");
    return true; }]: a validator that throws instead of answering [false]. *)
Definition digitsOrThrow (value : EnvValue) : Completion bool :=
  match value with
  | Own v =>
      if forallb (λ c, (48 <=? nat_of_ascii c)%nat && (nat_of_ascii c <=? 57)%nat)
           (String.list_ascii_of_string v)
      then Return true else Throw "digits expected"
  | Inherited _ => Throw "digits expected"
  end.

Definition strictDigits : EnvVarConfig :=
  {| required := None; default := None; type := None;
     validator := Some digitsOrThrow; transform := None |}.

Definition digitsOnly : EnvConfig :=
  {| vars := [("COUNT", strictDigits)]; prefix := None; strict := None |}.


Definition requiredConstructor : EnvConfig :=
  {| vars := [("constructor", API_KEY)]; prefix := None; strict := Some false |}.
End Samples.

(** ** Variants of a schema *)

(** The rule [varConfig] with its transform replaced. *)
Definition withTransform (f : option (EnvValue → Completion JsValue))
    (varConfig : EnvVarConfig) : EnvVarConfig :=
  {| required := required varConfig;
     default := default varConfig;
     type := type varConfig;
     validator := validator varConfig;
     transform := f |}.

(** The schema [config] with another [strict] flag and with the transform
    of each rule replaced by what [f] chooses for the entry. *)
Definition withStrictAndTransforms (flag : option bool)
    (f : string → EnvVarConfig → option (EnvValue → Completion JsValue))
    (config : EnvConfig) : EnvConfig :=
  {| vars := (λ entry, (entry.1, withTransform (f entry.1 entry.2) entry.2)) <$> vars config;
     prefix := prefix config;
     strict := flag |}.

(** * Properties *)

(** ** Property reads *)

Lemma getProperty_own {A} (obj : gmap string A) (key : string) (a : A) :
  obj !! key = Some a → getProperty obj key = Some (Own a).
Proof. unfold getProperty. by intros ->. Qed.


Lemma getProperty_inherited {A} (obj : gmap string A) (key : string) :
  obj !! key = None → inherited key = true → getProperty obj key = Some (Inherited key).
Proof. unfold getProperty. by intros -> ->. Qed.

Lemma present_missing (env : Env) (name : string) :
  present (getProperty env name) = None ↔ missing env name.
Proof.
  unfold present, getProperty, missing.
  destruct (env !! name) as [value|].
  - destruct (String.eqb value "") eqn:Hempty.
    + apply String.eqb_eq in Hempty as ->. naive_solver.
    + apply String.eqb_neq in Hempty. naive_solver.
  - destruct (inherited name); naive_solver.
Qed.

Lemma present_own (env : Env) (name raw : string) :
  env !! name = Some raw → raw ≠ "" → present (getProperty env name) = Some (Own raw).
Proof.
  intros Hraw Hne%String.eqb_neq. unfold present.
  by rewrite (getProperty_own _ _ _ Hraw), Hne.
Qed.

Lemma present_inherited (env : Env) (name : string) :
  env !! name = None → inherited name = true →
  present (getProperty env name) = Some (Inherited name).
Proof. intros Hunset Hname. unfold present. by rewrite getProperty_inherited. Qed.

(** A value that is present is an own non-empty string or a member of
    [Object.prototype] under an unset name. *)
Lemma present_Some (env : Env) (name : string) (value : EnvValue) :
  present (getProperty env name) = Some value
  ↔ (∃ raw, value = Own raw ∧ env !! name = Some raw ∧ raw ≠ "")
    ∨ (value = Inherited name ∧ env !! name = None ∧ inherited name = true).
Proof.
  unfold present, getProperty.
  destruct (env !! name) as [raw|].
  - destruct (String.eqb raw "") eqn:Hempty.
    + apply String.eqb_eq in Hempty as ->. naive_solver.
    + apply String.eqb_neq in Hempty. naive_solver.
  - destruct (inherited name); naive_solver.
Qed.

(** ** Environment accessors *)










(** ** Route mapping *)

Lemma createRouteMapping_loop_app (front back : list Route) prices result :
  createRouteMapping_loop (front ++ back) prices result
  = createRouteMapping_loop back prices (createRouteMapping_loop front prices result).
Proof.
  revert result. induction front as [|route front IH]; intros result; simpl; [done|].
  apply IH.
Qed.

Lemma assignRoute_own_ne p q entry result :
  p ≠ q → ownRoutes (assignRoute p entry result) !! q = ownRoutes result !! q.
Proof.
  intros Hne. unfold assignRoute. destruct (String.eqb p "__proto__"); simpl; [done|].
  by apply lookup_insert_ne.
Qed.

Lemma createRouteMapping_loop_other (routes : list Route) prices result (p : string) :
  (∀ r, r ∈ routes → route_path r ≠ p) →
  ownRoutes (createRouteMapping_loop routes prices result) !! p = ownRoutes result !! p.
Proof.
  revert result. induction routes as [|route routes IH]; intros result Hfresh; simpl; [done|].
  rewrite IH.
  - apply assignRoute_own_ne, Hfresh. left.
  - intros r Hr. apply Hfresh. by right.
Qed.

(** No assignment creates an own property [__proto__]. *)
Lemma createRouteMapping_loop_own_proto (routes : list Route) prices result :
  ownRoutes (createRouteMapping_loop routes prices result) !! "__proto__"
  = ownRoutes result !! "__proto__".
Proof.
  revert result. induction routes as [|route routes IH]; intros result; simpl; [done|].
  rewrite IH. unfold assignRoute.
  destruct (String.eqb_spec (route_path route) "__proto__") as [Heq|Hne]; simpl; [done|].
  by apply lookup_insert_ne.
Qed.

Lemma createRouteMapping_loop_prototype (routes : list Route) prices result :
  (∀ r, r ∈ routes → route_path r ≠ "__proto__") →
  prototype (createRouteMapping_loop routes prices result) = prototype result.
Proof.
  revert result. induction routes as [|route routes IH]; intros result Hfresh; simpl; [done|].
  rewrite IH.
  - unfold assignRoute.
    destruct (String.eqb_spec (route_path route) "__proto__") as [Heq|Hne]; simpl; [|done].
    destruct (Hfresh route); [left|done].
  - intros r Hr. apply Hfresh. by right.
Qed.

Lemma createRouteMapping_last_wins (before after : list Route) route prices :
  (∀ r, r ∈ after → route_path r ≠ route_path route) →
  route_path route ≠ "__proto__" →
  ownRoutes (createRouteMapping (before ++ route :: after) prices) !! route_path route
  = Some (routeEntry prices route).
Proof.
  intros Hlast Hname%String.eqb_neq. unfold createRouteMapping.
  rewrite createRouteMapping_loop_app. simpl.
  rewrite createRouteMapping_loop_other by done.
  unfold assignRoute. rewrite Hname. simpl. apply lookup_insert_eq.
Qed.

Lemma createRouteMapping_last_prototype (before after : list Route) route prices :
  (∀ r, r ∈ after → route_path r ≠ route_path route) →
  route_path route = "__proto__" →
  prototype (createRouteMapping (before ++ route :: after) prices)
  = Some (routeEntry prices route).
Proof.
  intros Hlast Hname. unfold createRouteMapping.
  rewrite createRouteMapping_loop_app. simpl.
  rewrite createRouteMapping_loop_prototype by (by rewrite <- Hname).
  unfold assignRoute. by rewrite Hname.
Qed.

(** Every list that holds a route with path [p] has a last such route. *)
Lemma last_route_with_path (routes : list Route) (p : string) :
  (∃ r, r ∈ routes ∧ route_path r = p) →
  ∃ before route after,
    routes = before ++ route :: after ∧ route_path route = p
    ∧ ∀ r, r ∈ after → route_path r ≠ p.
Proof.
  induction routes as [|head routes IH]; intros (r & Hr & Hp).
  - by apply elem_of_nil in Hr.
  - destruct (decide (Exists (λ r', route_path r' = p) routes)) as [Hlater|Hnone];
      rewrite Exists_exists in *.
    + destruct (IH Hlater) as (before & route & after & -> & Hroute & Hafter).
      exists (head :: before), route, after. done.
    + apply elem_of_cons in Hr as [->|Hr].
      * exists [], head, routes. split_and!; [done..|].
        intros r' Hr' Heq. apply Hnone. eauto.
      * exfalso. apply Hnone. eauto.
Qed.

Example createRouteMapping_NaN_price :
  ownRoutes (createRouteMapping
    [{| route_path := "/n"; priceKey := "n"; route_description := None |}]
    {[ "n" := PrimFloat.nan ]}) !! "/n"
  = Some {| path := "/n"; price := Own 0%float; description := None; rateLimit := None |}.
Proof. reflexivity. Qed.

Example createRouteMapping_inherited_priceKey :
  ownRoutes (createRouteMapping
    [{| route_path := "/a"; priceKey := "constructor"; route_description := None |}] ∅)
    !! "/a"
  = Some {| path := "/a"; price := Inherited "constructor"; description := None;
            rateLimit := None |}.
Proof. reflexivity. Qed.

Example createRouteMapping_proto_path :
  createRouteMapping
    [{| route_path := "__proto__"; priceKey := "x"; route_description := None |}]
    {[ "x" := 1%float ]}
  = {| ownRoutes := ∅;
       prototype := Some {| path := "__proto__"; price := Own 1%float; description := None;
                            rateLimit := None |} |}.
Proof. reflexivity. Qed.




(** ** The loop of [createConfig] *)

Lemma NoDup_fst_unique {A B} (l : list (A * B)) (k : A) (x y : B) :
  NoDup l.*1 → (k, x) ∈ l → (k, y) ∈ l → x = y.
Proof.
  induction l as [|[k' z] l IH]; intros Hnodup Hx Hy.
  - by apply elem_of_nil in Hx.
  - rewrite fmap_cons in Hnodup. simpl in Hnodup.
    apply NoDup_cons in Hnodup as [Hfresh Hnodup].
    assert (∀ w, (k', w) ∈ l → False) as Habsent.
    { intros w Hw. apply Hfresh. apply list_elem_of_fmap. by exists (k', w). }
    apply elem_of_cons in Hx as [[= -> ->]|Hx], Hy as [[= ->]|Hy];
      [done | by destruct (Habsent y) | idtac | by apply IH].
    subst. by destruct (Habsent x).
Qed.

Section CreateConfigLoop.
Context `{Builtins}.
Variables (env : Env) (config : EnvConfig).

Implicit Types (entries before after : list (string * EnvVarConfig)).
Implicit Types (result out : gmap string JsValue).

Lemma createConfig_loop_cons key varConfig entries result :
  createConfig_loop env config ((key, varConfig) :: entries) result
  = match resolveVar env config key varConfig with
    | Return value => createConfig_loop env config entries (<[key := value]> result)
    | Throw message => Throw message
    end.
Proof. reflexivity. Qed.

(** A key that the remaining entries do not mention keeps its value. *)
Lemma createConfig_loop_lookup_other entries result out k :
  createConfig_loop env config entries result = Return out →
  k ∉ entries.*1 →
  out !! k = result !! k.
Proof.
  revert result. induction entries as [|[key varConfig] entries IH]; intros result.
  - simpl. intros [= <-] _. reflexivity.
  - rewrite createConfig_loop_cons.
    destruct (resolveVar env config key varConfig) as [value|]; [|discriminate].
    intros Hloop Hfresh. rewrite fmap_cons in Hfresh. simpl in Hfresh.
    apply not_elem_of_cons in Hfresh as [Hne Hfresh].
    rewrite (IH _ Hloop Hfresh). by apply lookup_insert_ne.
Qed.

(** When the loop returns, every entry was resolved, and the object holds
    the value of each entry whose key is not repeated. *)
Lemma createConfig_loop_Return entries result out :
  createConfig_loop env config entries result = Return out →
  NoDup entries.*1 →
  ∀ k r, (k, r) ∈ entries →
    ∃ value, resolveVar env config k r = Return value ∧ out !! k = Some value.
Proof.
  revert result. induction entries as [|[key varConfig] entries IH]; intros result.
  - intros _ _ k r Hin. by apply elem_of_nil in Hin.
  - rewrite createConfig_loop_cons.
    destruct (resolveVar env config key varConfig) as [value|] eqn:Hstep; [|discriminate].
    intros Hloop Hnodup k r Hin.
    rewrite fmap_cons in Hnodup. simpl in Hnodup.
    apply NoDup_cons in Hnodup as [Hfresh Hnodup].
    apply elem_of_cons in Hin as [[= -> ->]|Hin].
    + exists value. split; [done|].
      rewrite (createConfig_loop_lookup_other _ _ _ _ Hloop Hfresh).
      apply lookup_insert_eq.
    + by apply (IH _ Hloop Hnodup).
Qed.

(** An entry that fails makes the loop throw, whatever the other entries. *)
Lemma createConfig_loop_throws entries result k r message :
  (k, r) ∈ entries →
  resolveVar env config k r = Throw message →
  throws (createConfig_loop env config entries result).
Proof.
  revert result. induction entries as [|[key varConfig] entries IH]; intros result Hin Hstep.
  - by apply elem_of_nil in Hin.
  - rewrite createConfig_loop_cons.
    destruct (resolveVar env config key varConfig) as [value|message'] eqn:Hhead.
    + apply elem_of_cons in Hin as [[= -> ->]|Hin]; [congruence|].
      by apply IH.
    + by exists message'.
Qed.

(** The first entry that fails decides the error. *)
Lemma createConfig_loop_first_failure before key varConfig after result message :
  (∀ k r, (k, r) ∈ before → returns (resolveVar env config k r)) →
  resolveVar env config key varConfig = Throw message →
  createConfig_loop env config (before ++ (key, varConfig) :: after) result = Throw message.
Proof.
  revert result. induction before as [|[k r] before IH]; intros result Hbefore Hstep.
  - simpl. by rewrite Hstep.
  - rewrite <- app_comm_cons, createConfig_loop_cons.
    destruct (Hbefore k r) as [value ->]; [left|].
    apply IH; [|done]. intros k' r' Hin. apply Hbefore. by right.
Qed.

(** An error of the loop is the error of one of its entries, all entries
    before which were resolved. *)
Lemma createConfig_loop_Throw entries result message :
  createConfig_loop env config entries result = Throw message →
  ∃ before key varConfig after,
    entries = before ++ (key, varConfig) :: after
    ∧ (∀ k r, (k, r) ∈ before → returns (resolveVar env config k r))
    ∧ resolveVar env config key varConfig = Throw message.
Proof.
  revert result. induction entries as [|[key varConfig] entries IH]; intros result.
  - discriminate.
  - rewrite createConfig_loop_cons.
    destruct (resolveVar env config key varConfig) as [value|message'] eqn:Hhead.
    + intros Hloop.
      destruct (IH _ Hloop) as (before & k & r & after & -> & Hbefore & Hstep).
      exists ((key, varConfig) :: before), k, r, after. split_and!; [done| |done].
      intros k' r' [[= -> ->]|Hin]%elem_of_cons; [by exists value|by apply Hbefore].
    + intros [= ->]. exists [], key, varConfig, entries. split_and!; [done| |done].
      intros k r Hin. by apply elem_of_nil in Hin.
Qed.

(** The loop returns as soon as no entry fails. *)
Lemma createConfig_loop_returns entries result :
  (∀ k r, (k, r) ∈ entries → returns (resolveVar env config k r)) →
  returns (createConfig_loop env config entries result).
Proof.
  intros Hall.
  destruct (createConfig_loop env config entries result) as [out|message] eqn:Hloop;
    [by exists out|].
  apply createConfig_loop_Throw in Hloop
    as (before & key & varConfig & after & -> & _ & Hstep).
  destruct (Hall key varConfig) as [value Hvalue]; [|congruence].
  apply elem_of_app. right. left.
Qed.


End CreateConfigLoop.

(** ** One iteration of [createConfig] *)

Lemma truthy_true (b : option bool) : truthy b = true ↔ b = Some true.
Proof. destruct b as [[]|]; naive_solver. Qed.

Lemma validatorRejects_unset (varConfig : EnvVarConfig) (value : EnvValue) :
  validator varConfig = None → validatorRejects varConfig value = Return false.
Proof. unfold validatorRejects. by intros ->. Qed.

Lemma validatorRejects_answer (varConfig : EnvVarConfig) (value : EnvValue) check b :
  validator varConfig = Some check → check value = Return b →
  validatorRejects varConfig value = Return (negb b).
Proof. unfold validatorRejects. by intros -> ->. Qed.

Lemma validatorRejects_Throw (varConfig : EnvVarConfig) (value : EnvValue) message :
  validatorRejects varConfig value = Throw message
  ↔ ∃ check, validator varConfig = Some check ∧ check value = Throw message.
Proof.
  unfold validatorRejects. destruct (validator varConfig) as [check|].
  - split.
    + intros Hcheck. exists check. split; [done|]. by destruct (check value).
    + intros (check' & [= <-] & ->). done.
  - split; [discriminate | by intros (check & [=] & _)].
Qed.


Lemma validatorRejects_true (varConfig : EnvVarConfig) (value : EnvValue) :
  validatorRejects varConfig value = Return true
  ↔ ∃ check, validator varConfig = Some check ∧ check value = Return false.
Proof.
  unfold validatorRejects. destruct (validator varConfig) as [check|].
  - split.
    + intros Hcheck. exists check. split; [done|]. by destruct (check value) as [[]|].
    + intros (check' & [= <-] & ->). done.
  - split; [discriminate | by intros (check & [=] & _)].
Qed.

Section ResolveVar.
Context `{Builtins}.
Variables (env : Env) (config : EnvConfig).

Lemma resolveVar_missing key varConfig :
  missing env (envKeyOf config key) →
  resolveVar env config key varConfig
  = if truthy (required varConfig) && negb (bool_decide (strict config = Some false))
    then Throw ("Required environment variable " +:+ envKeyOf config key +:+ " is not set")
    else Return (defaultOrUndefined varConfig).
Proof.
  intros Hmissing%present_missing. unfold resolveVar, defaultOrUndefined.
  rewrite Hmissing. by destruct (default varConfig).
Qed.

Lemma resolveVar_present key varConfig value :
  present (getProperty env (envKeyOf config key)) = Some value →
  resolveVar env config key varConfig
  = (rejected ←! validatorRejects varConfig value;
     if (rejected : bool)
     then Throw ("Invalid value for environment variable " +:+ envKeyOf config key)
     else match transform varConfig with
          | Some f => f value
          | None => parseValue (envKeyOf config key) value (type varConfig)
          end).
Proof. intros Hpresent. unfold resolveVar. by rewrite Hpresent. Qed.


(** The errors of [parseValue] on an own string. *)
Lemma parseValue_own_Throw envKey raw ty message :
  parseValue envKey (Own raw) ty = Throw message →
  (ty = Some TNumber ∧ PrimFloat.is_nan (parseFloat raw) = true
   ∧ message = "Invalid number for environment variable " +:+ envKey)
  ∨ (ty = Some TJson ∧ JSON_parse raw = None
     ∧ message = "Invalid JSON for environment variable " +:+ envKey).
Proof.
  simpl. unfold parseByType. destruct ty as [[]|]; try discriminate.
  - destruct (PrimFloat.is_nan (parseFloat raw)) eqn:Hnan; [|discriminate].
    intros [= <-]. by left.
  - destruct (JSON_parse raw) eqn:Hparse; [discriminate|].
    intros [= <-]. by right.
Qed.
End ResolveVar.

(** ** [createConfig] *)

Example createConfig_required_constructor :
  (∅ : Env) !! envKeyOf Samples.requiredConstructor "constructor" = None
  ∧ createConfig (H := ES.builtins) ∅
      {| vars := [("constructor", Samples.API_KEY)]; prefix := None; strict := None |}
    = Return {[ "constructor" := VInherited "constructor" ]}.
Proof. split; reflexivity. Qed.






Example createConfig_app :
  createConfig (H := ES.builtins) Samples.appEnv Samples.app
  = Return {[ "API_KEY" := VString "secret"; "PORT" := VNumber 8080;
              "DEBUG" := VBool true; "NETWORK" := VString "testnet" ]}.
Proof. vm_compute. reflexivity. Qed.




(** ** [validateConfig] *)

Lemma append_inj_l (p a b : string) : p +:+ a = p +:+ b → a = b.
Proof. induction p as [|c p IH]; simpl; [done|]. intros [= Heq]. by apply IH. Qed.

Section ValidateConfig.
Context `{Builtins}.
Variables (env : Env) (config : EnvConfig).

(** The loop appends, entry after entry, what each entry contributes, and
    stops at the first validator that throws. *)
Lemma validateConfig_loop_reports entries errs warns :
  validateConfig_loop env config entries errs warns
  = (rs ←! reports env config entries; Return (errs ++ rs.1, warns ++ rs.2)).
Proof.
  revert errs warns.
  induction entries as [|[key varConfig] entries IH]; intros errs warns.
  - simpl. by rewrite !app_nil_r.
  - cbn [validateConfig_loop reports entryReport].
    destruct (present (getProperty env (envKeyOf config key))) as [value|].
    + destruct (validatorRejects varConfig value) as [rejected|]; [|done]. simpl.
      rewrite IH. destruct (reports env config entries) as [[es ws]|]; [|done]. simpl.
      do 2 f_equal.
      destruct rejected, (type varConfig) as [[]|];
        try destruct (notANumber value); try destruct (notJson value);
        simpl; rewrite <- ?app_assoc; reflexivity.
    + destruct (truthy (required varConfig)); [|destruct (default varConfig)];
        simpl; rewrite IH; destruct (reports env config entries) as [[es ws]|];
        simpl; rewrite <- ?app_assoc; reflexivity.
Qed.

Lemma validateConfig_reports :
  validateConfig env config
  = (rs ←! reports env config (vars config);
     Return {| valid := Nat.eqb (length rs.1) 0; errors := rs.1; warnings := rs.2 |}).
Proof.
  unfold validateConfig. rewrite validateConfig_loop_reports.
  by destruct (reports env config (vars config)).
Qed.

(** When the reports return, each entry returned its own, and the messages
    of the whole are exactly the messages of the entries. *)
Lemma reports_Return entries es ws :
  reports env config entries = Return (es, ws) →
  (∀ entry, entry ∈ entries →
     ∃ r, entryReport env config entry = Return r
          ∧ (∀ m, m ∈ r.1 → m ∈ es) ∧ (∀ m, m ∈ r.2 → m ∈ ws))
  ∧ (∀ m, m ∈ es →
       ∃ entry r, entry ∈ entries ∧ entryReport env config entry = Return r ∧ m ∈ r.1)
  ∧ (∀ m, m ∈ ws →
       ∃ entry r, entry ∈ entries ∧ entryReport env config entry = Return r ∧ m ∈ r.2).
Proof.
  revert es ws. induction entries as [|entry entries IH]; intros es ws.
  - simpl. intros [= <- <-]. split_and!.
    + intros entry Hin. by apply elem_of_nil in Hin.
    + intros m Hm. by apply elem_of_nil in Hm.
    + intros m Hm. by apply elem_of_nil in Hm.
  - simpl. destruct (entryReport env config entry) as [r|] eqn:Hentry; [|discriminate].
    simpl. destruct (reports env config entries) as [[es' ws']|]; [|discriminate].
    simpl. intros [= <- <-].
    destruct (IH es' ws' eq_refl) as (Hall & Herrors & Hwarnings). split_and!.
    + intros entry' [->|Hin]%elem_of_cons.
      * exists r. split_and!; [done|..]; intros m Hm; apply elem_of_app; by left.
      * destruct (Hall _ Hin) as (r' & Hr' & He & Hw). exists r'.
        split_and!; [done|..]; intros m Hm; apply elem_of_app; right; eauto.
    + intros m [Hm|Hm]%elem_of_app.
      * exists entry, r. split_and!; [left|done..].
      * destruct (Herrors _ Hm) as (entry' & r' & Hin & Hr' & Hm').
        exists entry', r'. split_and!; [by right|done..].
    + intros m [Hm|Hm]%elem_of_app.
      * exists entry, r. split_and!; [left|done..].
      * destruct (Hwarnings _ Hm) as (entry' & r' & Hin & Hr' & Hm').
        exists entry', r'. split_and!; [by right|done..].
Qed.

Lemma reports_returns entries :
  (∀ entry, entry ∈ entries → returns (entryReport env config entry)) →
  returns (reports env config entries).
Proof.
  induction entries as [|entry entries IH]; intros Hall; simpl; [by eexists|].
  destruct (Hall entry) as [r ->]; [left|]. simpl.
  destruct IH as [rs ->]; [|by eexists]. intros e He. apply Hall. by right.
Qed.

Lemma reports_Throw entries message :
  reports env config entries = Throw message →
  ∃ entry, entry ∈ entries ∧ entryReport env config entry = Throw message.
Proof.
  induction entries as [|entry entries IH]; simpl; [discriminate|].
  destruct (entryReport env config entry) as [r|message'] eqn:Hentry; simpl.
  - destruct (reports env config entries) as [rs|message']; [discriminate|].
    simpl. intros [= ->]. destruct (IH eq_refl) as (e & He & Hthrow).
    exists e. split; [by right|done].
  - intros [= ->]. exists entry. split; [left|done].
Qed.

(** An entry fails to report only when its validator throws. *)
Lemma entryReport_Throw key varConfig message :
  entryReport env config (key, varConfig) = Throw message →
  ∃ value check,
    present (getProperty env (envKeyOf config key)) = Some value
    ∧ validator varConfig = Some check ∧ check value = Throw message.
Proof.
  unfold entryReport.
  destruct (present (getProperty env (envKeyOf config key))) as [value|].
  - destruct (validatorRejects varConfig value) as [rejected|message'] eqn:Hrejects;
      [discriminate|].
    simpl. intros [= ->]. apply validatorRejects_Throw in Hrejects as (check & ? & ?).
    by exists value, check.
  - destruct (truthy (required varConfig)); [discriminate|].
    destruct (default varConfig); discriminate.
Qed.

Lemma validatorsReturn_reports :
  validatorsReturn env config → returns (reports env config (vars config)).
Proof.
  intros Hreturn. apply reports_returns. intros [key varConfig] Hin.
  destruct (entryReport env config (key, varConfig)) as [r|message] eqn:Hentry;
    [by eexists|].
  apply entryReport_Throw in Hentry as (value & check & Hpresent & Hcheck & Hthrow).
  destruct (Hreturn _ _ _ Hin Hpresent) as [rejected Hrejected].
  unfold validatorRejects in Hrejected. by rewrite Hcheck, Hthrow in Hrejected.
Qed.

Lemma entryReport_missing key varConfig :
  missing env (envKeyOf config key) →
  entryReport env config (key, varConfig)
  = if truthy (required varConfig)
    then Return (["Missing required: " +:+ envKeyOf config key], [])
    else match default varConfig with
         | None => Return ([], ["Optional not set: " +:+ envKeyOf config key])
         | Some _ => Return ([], [])
         end.
Proof. intros Hmissing%present_missing. unfold entryReport. by rewrite Hmissing. Qed.

Lemma entryReport_present key varConfig value :
  present (getProperty env (envKeyOf config key)) = Some value →
  entryReport env config (key, varConfig)
  = (rejected ←! validatorRejects varConfig value;
     Return
       ((if (rejected : bool) then ["Invalid value: " +:+ envKeyOf config key] else [])
        ++ match type varConfig with
           | Some TNumber =>
               if notANumber value then ["Invalid number: " +:+ envKeyOf config key] else []
           | Some TJson =>
               if notJson value then ["Invalid JSON: " +:+ envKeyOf config key] else []
           | _ => []
           end,
        [])).
Proof. intros Hpresent. unfold entryReport. by rewrite Hpresent. Qed.

(** A warning about a variable comes from an entry of that variable that
    is missing, not required and without default. *)
Lemma entryReport_warning entry r key :
  entryReport env config entry = Return r →
  ("Optional not set: " +:+ envKeyOf config key) ∈ r.2 →
  entry.1 = key ∧ r.1 = [] ∧ truthy (required entry.2) = false.
Proof.
  destruct entry as [k varConfig]. unfold entryReport. simpl.
  destruct (present (getProperty env (envKeyOf config k))) as [value|].
  - destruct (validatorRejects varConfig value); [|discriminate]. simpl.
    intros [= <-]. simpl. intros Hin. by apply elem_of_nil in Hin.
  - destruct (truthy (required varConfig)).
    + intros [= <-]. simpl. intros Hin. by apply elem_of_nil in Hin.
    + destruct (default varConfig).
      * intros [= <-]. simpl. intros Hin. by apply elem_of_nil in Hin.
      * intros [= <-]. simpl. intros Hin%list_elem_of_singleton.
        apply append_inj_l in Hin. unfold envKeyOf in Hin.
        by apply append_inj_l in Hin as <-.
Qed.
End ValidateConfig.

(** C4, as stated, fails for a validator that throws: the call of the
    validator is not guarded, so [validateConfig] throws instead of
    reporting. *)
Lemma validateConfig_throwing_validator_counterexample :
  validateConfig (H := ES.builtins) {[ "COUNT" := "abc" ]} Samples.digitsOnly
  = Throw "digits expected"
  ∧ throws (validateConfig (H := ES.builtins) {[ "COUNT" := "abc" ]} Samples.digitsOnly).
Proof. split; [reflexivity | by eexists]. Qed.

(** C4 (amended). [validateConfig] throws only an error thrown by a
    validator.  When no validator throws on the value of its variable, it
    returns a report after visiting every entry: [errors] and [warnings]
    are the concatenation, in schema order, of what each entry contributes;
    a required key whose variable is missing (set to the empty string, or
    unset under a name that is not a member of [Object.prototype]) is
    reported in [errors] and not in [warnings]; a rejected value, a value
    that is not a number for type number and a text that is not JSON for
    type json are reported in [errors]; an optional key that is missing and
    has no default is reported in [warnings]; and [valid] is [true] iff
    [errors] is empty. *)
Theorem validateConfig_accumulates `{Builtins} (env : Env) (config : EnvConfig) :
  (validatorsReturn env config →
   ∃ report,
     validateConfig env config = Return report
     ∧ reports env config (vars config) = Return (errors report, warnings report)
     ∧ (valid report = true ↔ errors report = [])
     ∧ ∀ key varConfig, (key, varConfig) ∈ vars config →
         let envKey := envKeyOf config key in
         (missing env envKey →
            (required varConfig = Some true →
               ("Missing required: " +:+ envKey) ∈ errors report
               ∧ (wellFormed config → ("Optional not set: " +:+ envKey) ∉ warnings report))
            ∧ (required varConfig ≠ Some true → default varConfig = None →
                 ("Optional not set: " +:+ envKey) ∈ warnings report))
         ∧ (∀ raw, env !! envKey = Some raw → raw ≠ "" →
              (∀ check, validator varConfig = Some check → check (Own raw) = Return false →
                 ("Invalid value: " +:+ envKey) ∈ errors report)
              ∧ (type varConfig = Some TNumber → PrimFloat.is_nan (parseFloat raw) = true →
                   ("Invalid number: " +:+ envKey) ∈ errors report)
              ∧ (type varConfig = Some TJson → JSON_parse raw = None →
                   ("Invalid JSON: " +:+ envKey) ∈ errors report)))
  ∧ (∀ message, validateConfig env config = Throw message →
       ∃ key varConfig value check,
         (key, varConfig) ∈ vars config
         ∧ present (getProperty env (envKeyOf config key)) = Some value
         ∧ validator varConfig = Some check ∧ check value = Throw message).
Proof.
  split.
  - intros Hreturn.
    destruct (validatorsReturn_reports env config Hreturn) as [[es ws] Hreports].
    exists {| valid := Nat.eqb (length es) 0; errors := es; warnings := ws |}.
    rewrite validateConfig_reports, Hreports. simpl.
    split_and!; [done | done | by rewrite Nat.eqb_eq, length_zero_iff_nil |].
    destruct (reports_Return env config _ _ _ Hreports) as (Hall & _ & Hwarnings).
    intros key varConfig Hin. cbv zeta.
    destruct (Hall _ Hin) as (r & Hr & Herrors & Hwarns). split.
    + intros Hmissing. rewrite (entryReport_missing _ _ _ _ Hmissing) in Hr. split.
      * intros Hrequired. rewrite (proj2 (truthy_true _) Hrequired) in Hr.
        injection Hr as <-. split; [apply Herrors; left|].
        intros Hwf Hwarning.
        destruct (Hwarnings _ Hwarning) as ([k r'] & rw & Hin' & Hrw & Hm).
        destruct (entryReport_warning env config _ _ _ Hrw Hm) as (Hk & _ & Hoptional).
        simpl in Hk, Hoptional. subst k.
        rewrite (NoDup_fst_unique _ _ _ _ Hwf Hin' Hin) in Hoptional.
        apply truthy_true in Hrequired. congruence.
      * intros Hoptional Hdefault. rewrite Hdefault in Hr.
        destruct (truthy (required varConfig)) eqn:Hrequired.
        { by apply truthy_true in Hrequired. }
        injection Hr as <-. apply Hwarns. left.
    + intros raw Hraw Hne.
      rewrite (entryReport_present _ _ _ _ _ (present_own _ _ _ Hraw Hne)) in Hr.
      destruct (validatorRejects varConfig (Own raw)) as [rejected|] eqn:Hrejects;
        [|discriminate].
      simpl in Hr. injection Hr as <-. split_and!.
      * intros check Hcheck Hfalse.
        rewrite (validatorRejects_answer _ _ _ _ Hcheck Hfalse) in Hrejects.
        injection Hrejects as <-. apply Herrors. simpl. left.
      * intros Hty Hnan. apply Herrors. simpl. rewrite Hty, Hnan.
        apply elem_of_app. right. left.
      * intros Hty Hparse. apply Herrors. simpl. rewrite Hty, Hparse.
        apply elem_of_app. right. left.
  - intros message. rewrite validateConfig_reports.
    destruct (reports env config (vars config)) as [rs|message'] eqn:Hreports;
      [discriminate|].
    simpl. intros [= ->].
    apply reports_Throw in Hreports as ([key varConfig] & Hin & Hthrow).
    apply entryReport_Throw in Hthrow as (value & check & ? & ? & ?).
    by exists key, varConfig, value, check.
Qed.

Lemma validateConfig_accumulates_witness :
  ∃ report,
    validateConfig (H := ES.builtins) ∅ Samples.app = Return report
    ∧ ("Missing required: " +:+ envKeyOf Samples.app "API_KEY") ∈ errors report
    ∧ ("Optional not set: " +:+ envKeyOf Samples.app "API_KEY") ∉ warnings report.
Proof.
  destruct (proj1 (validateConfig_accumulates (H := ES.builtins) ∅ Samples.app))
    as (report & Hreport & _ & _ & Hkeys).
  - intros key varConfig value Hin Hpresent.
    repeat (apply elem_of_cons in Hin as [[= -> ->]|Hin]; [discriminate Hpresent|]).
    by apply elem_of_nil in Hin.
  - exists report. split; [exact Hreport|].
    destruct (Hkeys "API_KEY" Samples.API_KEY) as [Hmissing _]; [repeat constructor|].
    destruct Hmissing as [Hrequired _]; [right; split; reflexivity|].
    destruct Hrequired as [Herror Hwarning]; [reflexivity|].
    split; [exact Herror|]. apply Hwarning.
    unfold wellFormed. apply (bool_decide_unpack _). vm_compute. exact I.
Defined.

Example validateConfig_app_unset :
  validateConfig (H := ES.builtins) {[ "APP_PORT" := "http" ]} Samples.app
  = Return {| valid := false;
              errors := ["Missing required: APP_API_KEY"; "Invalid number: APP_PORT";
                         "Missing required: APP_NETWORK"];
              warnings := [] |}.
Proof. reflexivity. Qed.

Example validateConfig_plain_unset :
  validateConfig (H := ES.builtins) ∅
    {| vars := [("HOST", Samples.plain)]; prefix := None; strict := None |}
  = Return {| valid := true; errors := []; warnings := ["Optional not set: HOST"] |}.
Proof. reflexivity. Qed.








(** * Further properties *)

(** ** Key-by-key assignment *)

Section AssignAll.
Context {A B : Type} (key : A → string) (value : A → B).

Implicit Types (items before after : list A) (result : gmap string B).






End AssignAll.


(** ** Prices *)

(** X3. [parsePrice] answers the fallback or the parsed number of a
    non-empty text, and never [NaN] unless the fallback itself is [NaN]:
    an unset variable, an empty one and a text that is not a number all give
    the fallback. *)
Theorem parsePrice_fallback_or_parsed `{Builtins} (envVar : option string) (fallback : float) :
  (envVar = None ∨ envVar = Some "" → parsePrice envVar fallback = fallback)
  ∧ (∀ raw, envVar = Some raw → PrimFloat.is_nan (parseFloat raw) = true →
       parsePrice envVar fallback = fallback)
  ∧ (∀ raw, envVar = Some raw → raw ≠ "" → PrimFloat.is_nan (parseFloat raw) = false →
       parsePrice envVar fallback = parseFloat raw)
  ∧ (PrimFloat.is_nan fallback = false →
       PrimFloat.is_nan (parsePrice envVar fallback) = false).
Proof.
  unfold parsePrice. split_and!.
  - intros [->| ->]; reflexivity.
  - intros raw -> Hnan. rewrite Hnan. by destruct (String.eqb raw "").
  - intros raw -> Hne%String.eqb_neq Hnan. by rewrite Hne, Hnan.
  - intros Hfallback. destruct envVar as [raw|]; [|done].
    destruct (String.eqb raw ""); [done|].
    by destruct (PrimFloat.is_nan (parseFloat raw)) eqn:Hnan.
Qed.

Lemma parsePrice_fallback_or_parsed_witness :
  parsePrice (H := ES.builtins) (Some "0.05") 1%float = parseFloat (Builtins := ES.builtins) "0.05"
  ∧ parsePrice (H := ES.builtins) (Some "free") 1%float = 1%float.
Proof.
  split.
  - apply (proj1 (proj2 (proj2 (parsePrice_fallback_or_parsed (H := ES.builtins)
                                  (Some "0.05") 1%float))) "0.05");
      [reflexivity | discriminate | reflexivity].
  - apply (proj1 (proj2 (parsePrice_fallback_or_parsed (H := ES.builtins)
                           (Some "free") 1%float)) "free"); reflexivity.
Defined.

(** X4. When the empty string is not a number for [parseFloat] (as in
    ECMAScript), [parsePrice] of a variable is [getEnvNumber] of that
    variable with the fallback as default. *)
Theorem parsePrice_getEnvNumber `{Builtins} (env : Env) (key : string) (fallback : float) :
  PrimFloat.is_nan (parseFloat "") = true →
  Some (parsePrice (env !! key) fallback) = getEnvNumber env key (Some fallback).
Proof.
  intros Hempty. unfold parsePrice, getEnvNumber.
  destruct (env !! key) as [raw|]; [|done].
  destruct (String.eqb raw "") eqn:Hraw.
  - apply String.eqb_eq in Hraw as ->. by rewrite Hempty.
  - by destruct (PrimFloat.is_nan (parseFloat raw)).
Qed.

Lemma parsePrice_getEnvNumber_witness :
  Some (parsePrice (H := ES.builtins) (({[ "PRICE_USD" := "" ]} : Env) !! "PRICE_USD") 1%float)
  = getEnvNumber (H := ES.builtins) {[ "PRICE_USD" := "" ]} "PRICE_USD" (Some 1%float).
Proof.
  apply (parsePrice_getEnvNumber (H := ES.builtins)). reflexivity.
Defined.

(** X5. [getEnvNumber] never answers a [NaN] read from the environment: a
    [NaN] result is the default.  A result other than the default is the
    parsed value of the variable. *)
Theorem getEnvNumber_NaN_only_from_default `{Builtins} (env : Env) (key : string)
    (defaultValue : option float) :
  (∀ x, getEnvNumber env key defaultValue = Some x → PrimFloat.is_nan x = true →
     defaultValue = Some x)
  ∧ (getEnvNumber env key defaultValue = defaultValue
     ∨ ∃ raw, env !! key = Some raw
              ∧ PrimFloat.is_nan (parseFloat raw) = false
              ∧ getEnvNumber env key defaultValue = Some (parseFloat raw)).
Proof.
  unfold getEnvNumber. destruct (env !! key) as [raw|].
  - destruct (PrimFloat.is_nan (parseFloat raw)) eqn:Hnan.
    + split; [done|by left].
    + split; [|right; by exists raw]. intros x [= <-]. congruence.
  - split; [done|by left].
Qed.



(** ** Service descriptor *)

(** X10. [createServiceInfo] is idempotent; its result always has a list of
    capabilities and a map of endpoints, keeps the name, the version, the
    description and the capabilities and endpoints that were given; and it
    changes nothing exactly when both were given. *)
Theorem createServiceInfo_normalizes (info : ServiceInfo.t) :
  createServiceInfo (createServiceInfo info) = createServiceInfo info
  ∧ is_Some (ServiceInfo.capabilities (createServiceInfo info))
  ∧ is_Some (ServiceInfo.endpoints (createServiceInfo info))
  ∧ ServiceInfo.name (createServiceInfo info) = ServiceInfo.name info
  ∧ ServiceInfo.version (createServiceInfo info) = ServiceInfo.version info
  ∧ ServiceInfo.description (createServiceInfo info) = ServiceInfo.description info
  ∧ (∀ given, ServiceInfo.capabilities info = Some given →
       ServiceInfo.capabilities (createServiceInfo info) = Some given)
  ∧ (∀ given, ServiceInfo.endpoints info = Some given →
       ServiceInfo.endpoints (createServiceInfo info) = Some given)
  ∧ (createServiceInfo info = info
     ↔ is_Some (ServiceInfo.capabilities info) ∧ is_Some (ServiceInfo.endpoints info)).
Proof.
  destruct info as [name version description capabilities endpoints].
  unfold createServiceInfo. simpl. split_and!; try done.
  - by intros given ->.
  - by intros given ->.
  - split.
    + intros [= Hcapabilities Hendpoints]. rewrite <- Hcapabilities, <- Hendpoints. eauto.
    + by intros [[? ->] [? ->]].
Qed.

(** ** Route prices *)

Lemma orZero_cases (prices : PriceConfig) (key : string) :
  match orZero (getProperty prices key) with
  | Own x => PrimFloat.is_nan x = false ∧ (x = 0%float ∨ prices !! key = Some x)
  | Inherited name => name = key ∧ prices !! key = None ∧ inherited key = true
  end.
Proof.
  unfold orZero, getProperty. destruct (prices !! key) as [p|].
  - destruct (PrimFloat.is_nan p) eqn:Hnan; simpl; [by split; [|left]|].
    destruct (PrimFloat.is_zero p); [by split; [|left]|]. by split; [|right].
  - destruct (inherited key) eqn:Hname; [done|]. by split; [|left].
Qed.

(** The price read at the path of the last route with that path, whether
    the route was stored as a property or as the prototype. *)
Lemma getRoutePrice_last (before after : list Route) route prices :
  (∀ r, r ∈ after → route_path r ≠ route_path route) →
  getRoutePrice (createRouteMapping (before ++ route :: after) prices) (route_path route)
  = Some (orZero (getProperty prices (priceKey route))).
Proof.
  intros Hlast. unfold getRoutePrice.
  destruct (String.eqb_spec (route_path route) "__proto__") as [Hname|Hname].
  - assert (ownRoutes (createRouteMapping (before ++ route :: after) prices)
              !! route_path route = None) as ->.
    { rewrite Hname. unfold createRouteMapping.
      by rewrite createRouteMapping_loop_own_proto. }
    by rewrite createRouteMapping_last_prototype.
  - by rewrite createRouteMapping_last_wins.
Qed.

Lemma getRoutePrice_fresh (routes : list Route) prices p :
  (∀ r, r ∈ routes → route_path r ≠ p) →
  getRoutePrice (createRouteMapping routes prices) p = None.
Proof.
  intros Hfresh. unfold getRoutePrice, createRouteMapping.
  rewrite createRouteMapping_loop_other by done. simpl. rewrite lookup_empty.
  destruct (String.eqb_spec p "__proto__") as [->|Hname]; [|done].
  by rewrite createRouteMapping_loop_prototype.
Qed.

(** X1. Every own entry of a route mapping is stored under its own path,
    which is not [__proto__]; its price is a number that is not [NaN] (even
    over a price table that holds [NaN]) or, for a [priceKey] that is not in
    the table and names one, a member of [Object.prototype]; it has no rate
    limit, and it comes from a route of the list with that path. *)
Theorem createRouteMapping_entry_invariant (routes : list Route) (prices : PriceConfig)
    (p : string) (entry : RouteConfig) :
  ownRoutes (createRouteMapping routes prices) !! p = Some entry →
  path entry = p
  ∧ p ≠ "__proto__"
  ∧ rateLimit entry = None
  ∧ ∃ route, route ∈ routes ∧ route_path route = p
             ∧ description entry = route_description route
             ∧ match price entry with
               | Own x =>
                   PrimFloat.is_nan x = false
                   ∧ (x = 0%float ∨ prices !! priceKey route = Some x)
               | Inherited name =>
                   name = priceKey route ∧ prices !! name = None ∧ inherited name = true
               end.
Proof.
  intros Hentry.
  assert (p ≠ "__proto__") as Hname.
  { intros ->. unfold createRouteMapping in Hentry.
    by rewrite createRouteMapping_loop_own_proto in Hentry. }
  destruct (decide (Exists (λ r, route_path r = p) routes)) as [Hsome|Hnone];
    rewrite Exists_exists in *.
  - destruct (last_route_with_path routes p Hsome)
      as (before & route & after & -> & <- & Hlast).
    rewrite createRouteMapping_last_wins in Hentry by done.
    injection Hentry as <-. split_and!; [done..|].
    exists route. split_and!; [apply elem_of_app; right; left | done | done |].
    simpl. pose proof (orZero_cases prices (priceKey route)) as Hprice.
    destruct (orZero (getProperty prices (priceKey route))); [done|].
    destruct Hprice as (-> & ? & ?). done.
  - unfold createRouteMapping in Hentry.
    rewrite createRouteMapping_loop_other in Hentry by naive_solver. done.
Qed.

Lemma createRouteMapping_entry_invariant_witness :
  path {| path := "/n"; price := Own 0%float; description := None; rateLimit := None |} = "/n"
  ∧ "/n" ≠ "__proto__".
Proof.
  destruct (createRouteMapping_entry_invariant
              [{| route_path := "/n"; priceKey := "n"; route_description := None |}]
              {[ "n" := PrimFloat.nan ]} "/n"
              {| path := "/n"; price := Own 0%float; description := None; rateLimit := None |})
    as (Hpath & Hname & _); [reflexivity|].
  exact (conj Hpath Hname).
Defined.

(** X2. [getRoutePrice] over a route mapping answers [undefined] exactly for
    the paths no route has.  A price it answers comes from a route with
    that path: a number that is not [NaN] and is either 0 or the price the
    table holds under the [priceKey] of the route, or the member of
    [Object.prototype] that a [priceKey] absent from the table names. *)
Theorem getRoutePrice_createRouteMapping (routes : list Route) (prices : PriceConfig)
    (p : string) :
  (getRoutePrice (createRouteMapping routes prices) p = None
   ↔ ∀ r, r ∈ routes → route_path r ≠ p)
  ∧ (∀ x, getRoutePrice (createRouteMapping routes prices) p = Some x →
       ∃ route, route ∈ routes ∧ route_path route = p
                ∧ match x with
                  | Own v =>
                      PrimFloat.is_nan v = false
                      ∧ (v = 0%float ∨ prices !! priceKey route = Some v)
                  | Inherited name =>
                      name = priceKey route ∧ prices !! name = None
                      ∧ inherited name = true
                  end).
Proof.
  destruct (decide (Exists (λ r, route_path r = p) routes)) as [Hsome|Hnone];
    rewrite Exists_exists in *.
  - destruct (last_route_with_path routes p Hsome)
      as (before & route & after & -> & <- & Hlast).
    rewrite getRoutePrice_last by done. split.
    + split; [discriminate|]. intros Hfresh. destruct (Hfresh route); [|done].
      apply elem_of_app. right. left.
    + intros x [= <-]. exists route. split_and!; [apply elem_of_app; right; left | done |].
      pose proof (orZero_cases prices (priceKey route)) as Hprice.
      destruct (orZero (getProperty prices (priceKey route))); [done|].
      destruct Hprice as (-> & ? & ?). done.
  - assert (∀ r, r ∈ routes → route_path r ≠ p) as Hfresh by naive_solver.
    rewrite getRoutePrice_fresh by done. split; [done|discriminate].
Qed.

Lemma getRoutePrice_createRouteMapping_witness :
  getRoutePrice
    (createRouteMapping
       [{| route_path := "/a"; priceKey := "x"; route_description := None |}]
       {[ "x" := 1%float ]}) "/b" = None.
Proof.
  apply (proj1 (getRoutePrice_createRouteMapping _ _ _)).
  intros r [->|Hr%elem_of_nil]%elem_of_cons; [discriminate|done].
Defined.



(** ** Feature flags *)

Lemma flagValue_Throw (env : Env) (config : FlagSource.t) (message : string) :
  flagValue env config = Throw message
  ↔ env !! FlagSource.envKey config = None
    ∧ inherited (FlagSource.envKey config) = true
    ∧ message = notAFunction.
Proof.
  unfold flagValue, getProperty.
  destruct (env !! FlagSource.envKey config) as [value|]; simpl; [naive_solver|].
  destruct (inherited (FlagSource.envKey config)); simpl; naive_solver.
Qed.

Lemma assignFlag_lookup (key k : string) (enabled : bool) (result : FeatureFlags) :
  assignFlag key enabled result !! k
  = if decide (key = k ∧ k ≠ "__proto__") then Some enabled else result !! k.
Proof.
  unfold assignFlag. destruct (String.eqb_spec key "__proto__") as [->|Hkey].
  - case_decide as Hk; [by destruct Hk as [<- ?]|done].
  - case_decide as Hk.
    + destruct Hk as [<- _]. by rewrite lookup_insert_eq.
    + rewrite lookup_insert_ne; [done|]. intros <-. by apply Hk.
Qed.

Section FlagsLoop.
Variable env : Env.

(** When the loop returns, every flag was computed. *)
Lemma createFeatureFlags_loop_Return entries result out :
  createFeatureFlags_loop env entries result = Return out →
  ∀ entry, entry ∈ entries → returns (flagValue env entry.2).
Proof.
  revert result. induction entries as [|[k c] entries IH]; intros result; simpl.
  - intros _ entry Hin. by apply elem_of_nil in Hin.
  - destruct (flagValue env c) as [enabled|] eqn:Hflag; [|discriminate]. simpl.
    intros Hloop entry [->|Hin]%elem_of_cons; [by exists enabled | by eapply IH].
Qed.

Lemma createFeatureFlags_loop_Throw entries result message :
  createFeatureFlags_loop env entries result = Throw message →
  ∃ entry, entry ∈ entries ∧ flagValue env entry.2 = Throw message.
Proof.
  revert result. induction entries as [|[k c] entries IH]; intros result; simpl;
    [discriminate|].
  destruct (flagValue env c) as [enabled|message'] eqn:Hflag; simpl.
  - intros (entry & Hin & Hthrow)%IH. exists entry. split; [by right|done].
  - intros [= ->]. exists (k, c). split; [left|done].
Qed.

(** The properties of the object: those it had, and the keys of the
    entries other than [__proto__]. *)
Lemma createFeatureFlags_loop_is_Some entries result out k :
  createFeatureFlags_loop env entries result = Return out →
  is_Some (out !! k) ↔ is_Some (result !! k) ∨ (k ∈ entries.*1 ∧ k ≠ "__proto__").
Proof.
  revert result. induction entries as [|[key c] entries IH]; intros result; simpl.
  - intros [= <-]. rewrite elem_of_nil. naive_solver.
  - destruct (flagValue env c) as [enabled|]; [|discriminate]. simpl.
    intros Hloop. rewrite (IH _ Hloop), assignFlag_lookup, elem_of_cons.
    case_decide as Hk; [|naive_solver].
    destruct Hk as [<- Hname]. split; [|intros _; left; by eexists].
    intros _. right. split; [by left|done].
Qed.

(** A key that no entry has, and [__proto__], keep what they had. *)
Lemma createFeatureFlags_loop_lookup_other entries result out k :
  createFeatureFlags_loop env entries result = Return out →
  k ∉ entries.*1 ∨ k = "__proto__" →
  out !! k = result !! k.
Proof.
  revert result. induction entries as [|[key c] entries IH]; intros result; simpl.
  - by intros [= <-].
  - destruct (flagValue env c) as [enabled|]; [|discriminate]. simpl.
    intros Hloop Hother. rewrite (IH _ Hloop), assignFlag_lookup.
    + case_decide as Hk; [|done]. destruct Hk as [<- Hname].
      destruct Hother as [Hfresh|?]; [|done]. destruct Hfresh. left.
    + destruct Hother as [Hfresh|?]; [left|by right].
      intros Hin. apply Hfresh. by right.
Qed.

(** A key that one entry has holds the flag of that entry. *)
Lemma createFeatureFlags_loop_lookup entries result out k c :
  createFeatureFlags_loop env entries result = Return out →
  NoDup entries.*1 → (k, c) ∈ entries → k ≠ "__proto__" →
  ∃ enabled, flagValue env c = Return enabled ∧ out !! k = Some enabled.
Proof.
  revert result. induction entries as [|[key c'] entries IH]; intros result; simpl.
  - intros _ _ Hin. by apply elem_of_nil in Hin.
  - destruct (flagValue env c') as [enabled|] eqn:Hflag; [|discriminate]. simpl.
    intros Hloop [Hfresh Hnodup]%NoDup_cons [[= -> ->]|Hin]%elem_of_cons Hname.
    + exists enabled. split; [done|].
      rewrite (createFeatureFlags_loop_lookup_other _ _ _ key Hloop) by by left.
      rewrite assignFlag_lookup. by rewrite decide_True.
    + by eapply IH.
Qed.
End FlagsLoop.

(** X8. [createFeatureFlags] throws only the [TypeError] of
    [value.toLowerCase()], and exactly when the variable of some entry is
    unset under a name that is a member of [Object.prototype].  The object
    it returns has exactly the keys of the flag map other than [__proto__],
    and for a flag map without repeated key the flag of such a key is what
    [getEnvBoolean] answers for the entry's variable with the entry's
    default. *)
Theorem createFeatureFlags_getEnvBoolean (env : Env) (flags : list (string * FlagSource.t)) :
  (throws (createFeatureFlags env flags)
   ↔ ∃ k config, (k, config) ∈ flags
                 ∧ env !! FlagSource.envKey config = None
                 ∧ inherited (FlagSource.envKey config) = true)
  ∧ (∀ message, createFeatureFlags env flags = Throw message → message = notAFunction)
  ∧ (∀ result, createFeatureFlags env flags = Return result →
       (∀ k, is_Some (result !! k) ↔ k ∈ flags.*1 ∧ k ≠ "__proto__")
       ∧ (NoDup flags.*1 →
          ∀ k config, (k, config) ∈ flags → k ≠ "__proto__" →
            getEnvBoolean env (FlagSource.envKey config) (Some (FlagSource.default config))
            = Return (result !! k))).
Proof.
  unfold createFeatureFlags. split_and!.
  - split.
    + intros [message ([k c] & Hin & Hthrow)%createFeatureFlags_loop_Throw].
      apply flagValue_Throw in Hthrow as (? & ? & _). by exists k, c.
    + intros (k & c & Hin & Hunset & Hname).
      destruct (createFeatureFlags_loop env flags ∅) as [result|message] eqn:Hloop;
        [|by eexists].
      destruct (createFeatureFlags_loop_Return _ _ _ _ Hloop _ Hin) as [enabled Hflag].
      simpl in Hflag. by rewrite (proj2 (flagValue_Throw env c notAFunction)) in Hflag.
  - intros message ([k c] & Hin & Hthrow)%createFeatureFlags_loop_Throw.
    by apply flagValue_Throw in Hthrow as (_ & _ & ->).
  - intros result Hloop. split.
    + intros k. rewrite (createFeatureFlags_loop_is_Some _ _ _ _ k Hloop), lookup_empty.
      split; [|by right]. by intros [[? [=]]|?].
    + intros Hnodup k config Hin Hname.
      destruct (createFeatureFlags_loop_lookup _ _ _ _ _ _ Hloop Hnodup Hin Hname)
        as (enabled & Hflag & ->).
      unfold flagValue in Hflag. unfold getEnvBoolean.
      destruct (getProperty env (FlagSource.envKey config)) as [value|].
      * by rewrite Hflag.
      * by injection Hflag as <-.
Qed.

Lemma createFeatureFlags_getEnvBoolean_witness :
  getEnvBoolean {[ "FEATURE_NEW_UI" := "1" ]} "FEATURE_NEW_UI" (Some false)
  = Return (({[ "newUI" := true; "analytics" := true ]} : FeatureFlags) !! "newUI").
Proof.
  refine (proj2 (proj2 (proj2 (createFeatureFlags_getEnvBoolean
            {[ "FEATURE_NEW_UI" := "1" ]}
            [("newUI", {| FlagSource.envKey := "FEATURE_NEW_UI";
                          FlagSource.default := false |});
             ("analytics", {| FlagSource.envKey := "FEATURE_ANALYTICS";
                              FlagSource.default := true |})])) _ _) _ "newUI"
            {| FlagSource.envKey := "FEATURE_NEW_UI"; FlagSource.default := false |} _ _).
  - vm_compute. reflexivity.
  - apply (bool_decide_unpack _). vm_compute. exact I.
  - left.
  - discriminate.
Defined.

(** X9. [isFeatureEnabled] over the flags [createFeatureFlags] returns: a
    name the flag map does not have, and [__proto__], read as [false] or as
    the member of [Object.prototype] they name; another name the flag map
    has (once) is enabled iff its variable is set to a text whose
    lower-cased form is "true" or that is "1", or its variable is unset and
    its default is [true].  A variable that is set to anything else, the
    empty string included, disables the flag whatever the default. *)
Theorem isFeatureEnabled_createFeatureFlags (env : Env) (flags : list (string * FlagSource.t))
    (result : FeatureFlags) (feature : string) :
  createFeatureFlags env flags = Return result →
  (feature ∉ flags.*1 ∨ feature = "__proto__" →
     isFeatureEnabled result feature
     = if inherited feature then Inherited feature else Own false)
  ∧ (NoDup flags.*1 → feature ≠ "__proto__" →
     ∀ config, (feature, config) ∈ flags →
       ∃ enabled,
         isFeatureEnabled result feature = Own enabled
         ∧ (enabled = true
            ↔ (∃ value, env !! FlagSource.envKey config = Some value
                        ∧ (toLowerCase value = "true" ∨ value = "1"))
              ∨ (env !! FlagSource.envKey config = None
                 ∧ FlagSource.default config = true))
         ∧ (env !! FlagSource.envKey config = Some "" → enabled = false)).
Proof.
  unfold createFeatureFlags. intros Hloop.
  unfold isFeatureEnabled, getProperty. split.
  - intros Hother.
    rewrite (createFeatureFlags_loop_lookup_other _ _ _ _ feature Hloop Hother),
      lookup_empty.
    by destruct (inherited feature).
  - intros Hnodup Hname config Hin.
    destruct (createFeatureFlags_loop_lookup _ _ _ _ _ _ Hloop Hnodup Hin Hname)
      as (enabled & Hflag & ->).
    exists enabled. split; [done|].
    unfold flagValue, getProperty in Hflag.
    destruct (env !! FlagSource.envKey config) as [value|]; simpl in Hflag.
    + injection Hflag as <-. split.
      * rewrite orb_true_iff, !String.eqb_eq. naive_solver.
      * by intros [= ->].
    + destruct (inherited (FlagSource.envKey config)); [discriminate|].
      injection Hflag as <-. split; [naive_solver|discriminate].
Qed.

Lemma isFeatureEnabled_createFeatureFlags_witness :
  (∃ enabled,
     isFeatureEnabled {[ "analytics" := false ]} "analytics" = Own enabled
     ∧ (enabled = true
        ↔ (∃ value, ({[ "FEATURE_ANALYTICS" := "" ]} : Env) !! "FEATURE_ANALYTICS" = Some value
                    ∧ (toLowerCase value = "true" ∨ value = "1"))
          ∨ (({[ "FEATURE_ANALYTICS" := "" ]} : Env) !! "FEATURE_ANALYTICS" = None
             ∧ true = true))
     ∧ (({[ "FEATURE_ANALYTICS" := "" ]} : Env) !! "FEATURE_ANALYTICS" = Some ""
        → enabled = false))
  ∧ isFeatureEnabled {[ "analytics" := false ]} "constructor" = Inherited "constructor".
Proof.
  destruct (isFeatureEnabled_createFeatureFlags {[ "FEATURE_ANALYTICS" := "" ]}
              [("analytics", {| FlagSource.envKey := "FEATURE_ANALYTICS";
                                FlagSource.default := true |})]
              {[ "analytics" := false ]} "analytics") as [_ Hknown]; [reflexivity|].
  destruct (isFeatureEnabled_createFeatureFlags {[ "FEATURE_ANALYTICS" := "" ]}
              [("analytics", {| FlagSource.envKey := "FEATURE_ANALYTICS";
                                FlagSource.default := true |})]
              {[ "analytics" := false ]} "constructor") as [Hunknown _]; [reflexivity|].
  split.
  - apply (Hknown ltac:(apply (bool_decide_unpack _); vm_compute; exact I)
             ltac:(discriminate)
             {| FlagSource.envKey := "FEATURE_ANALYTICS"; FlagSource.default := true |}).
    left.
  - apply Hunknown. left. apply (bool_decide_unpack _). vm_compute. exact I.
Defined.

(** ** [createConfig] and [validateConfig] together *)

Section DryRun.
Context `{Builtins}.
Variables (env : Env) (config : EnvConfig).

(** An entry that [validateConfig] reports no error for is an entry
    [createConfig] resolves, when its transform returns and it does not
    lower-case a member of [Object.prototype]. *)
Lemma entryReport_clean_resolves key varConfig r :
  (∀ f value, transform varConfig = Some f →
     present (getProperty env (envKeyOf config key)) = Some value → returns (f value)) →
  (∀ name, transform varConfig = None → type varConfig = Some TBoolean →
     present (getProperty env (envKeyOf config key)) ≠ Some (Inherited name)) →
  entryReport env config (key, varConfig) = Return r → r.1 = [] →
  returns (resolveVar env config key varConfig).
Proof.
  intros Htransform Hboolean. unfold entryReport, resolveVar.
  destruct (present (getProperty env (envKeyOf config key))) as [value|].
  - destruct (validatorRejects varConfig value) as [[]|]; simpl; [|  |discriminate].
    { intros [= <-]. discriminate. }
    intros [= <-]. simpl.
    destruct (transform varConfig) as [f|]; [intros _; by apply Htransform|].
    destruct value as [raw|name]; simpl; unfold parseByType.
    + destruct (type varConfig) as [[]|]; simpl; try (intros _; by eexists).
      * destruct (PrimFloat.is_nan (parseFloat raw)); [discriminate|by eexists].
      * destruct (JSON_parse raw); [by eexists|discriminate].
    + destruct (type varConfig) as [[]|]; simpl; try discriminate;
        try (intros _; by eexists).
      by destruct (Hboolean name).
  - destruct (truthy (required varConfig)); simpl.
    + intros [= <-]. discriminate.
    + intros _ _. destruct (default varConfig); by eexists.
Qed.

(** The converse holds when [strict] is not [false] and the rule does not
    combine a transform with type number or json. *)
Lemma resolveVar_Return_clean key varConfig value :
  strict config ≠ Some false →
  (is_Some (transform varConfig) →
   type varConfig ≠ Some TNumber ∧ type varConfig ≠ Some TJson) →
  resolveVar env config key varConfig = Return value →
  ∃ r, entryReport env config (key, varConfig) = Return r ∧ r.1 = [].
Proof.
  intros Hstrict Hbypass. unfold resolveVar, entryReport.
  destruct (present (getProperty env (envKeyOf config key))) as [raw|].
  - destruct (validatorRejects varConfig raw) as [[]|]; simpl; [discriminate| |discriminate].
    destruct (transform varConfig) as [f|].
    + destruct Hbypass as [Hnumber Hjson]; [by eexists|].
      intros _. eexists. split; [done|]. by destruct (type varConfig) as [[]|].
    + intros Hparse. eexists. split; [done|]. simpl.
      destruct raw as [raw|name]; simpl in *; unfold parseByType in *;
        destruct (type varConfig) as [[]|]; try done.
      * by destruct (PrimFloat.is_nan (parseFloat raw)).
      * by destruct (JSON_parse raw).
  - destruct (truthy (required varConfig)); simpl.
    + by rewrite bool_decide_eq_false_2.
    + intros _. destruct (default varConfig); by eexists.
Qed.

(** The reports return an empty list of errors iff every entry does. *)
Lemma reports_clean entries :
  (∃ ws, reports env config entries = Return ([], ws))
  ↔ ∀ entry, entry ∈ entries →
      ∃ r, entryReport env config entry = Return r ∧ r.1 = [].
Proof.
  split.
  - intros [ws (Hall & _ & _)%reports_Return] entry Hin.
    destruct (Hall entry Hin) as (r & Hr & Herrors & _). exists r. split; [done|].
    destruct (r.1) as [|m ms]; [done|].
    exfalso. eapply elem_of_nil, (Herrors m). left.
  - induction entries as [|entry entries IH]; intros Hall; simpl; [by eexists|].
    destruct (Hall entry) as ([es ws] & -> & Hes); [left|]. simpl in Hes. subst es.
    destruct IH as [ws' ->]; [|by eexists]. intros e He. apply Hall. by right.
Qed.

Lemma validateConfig_valid_clean :
  (∃ report, validateConfig env config = Return report ∧ valid report = true)
  ↔ ∃ ws, reports env config (vars config) = Return ([], ws).
Proof.
  rewrite validateConfig_reports.
  destruct (reports env config (vars config)) as [[es ws]|message]; simpl.
  - split.
    + intros (report & [= <-] & Hvalid). simpl in Hvalid.
      apply Nat.eqb_eq, length_zero_iff_nil in Hvalid as ->. by exists ws.
    + intros [ws' [= -> ->]]. by eexists.
  - split; [by intros (? & [=] & _) | by intros [? [=]]].
Qed.
End DryRun.

(** X11. [validateConfig] is a sound dry run of [createConfig] for the
    callbacks it does not run: when it answers [valid = true], no
    transform throws on the value of its variable, and no boolean rule
    without a transform reads a member of [Object.prototype], [createConfig]
    returns an object on the same schema and environment. *)
Theorem validateConfig_valid_createConfig_returns `{Builtins} (env : Env) (config : EnvConfig)
    (report : ConfigValidationResult) :
  transformsReturn env config →
  booleansAreStrings env config →
  validateConfig env config = Return report →
  valid report = true →
  returns (createConfig env config).
Proof.
  intros Htransform Hboolean Hreport Hvalid.
  destruct (proj1 (validateConfig_valid_clean env config)) as [ws Hclean];
    [by exists report|].
  apply createConfig_loop_returns. intros k r Hin.
  destruct (proj1 (reports_clean env config (vars config)) (ex_intro _ ws Hclean) (k, r) Hin)
    as (rep & Hrep & Hnone).
  eapply entryReport_clean_resolves; [| |done..].
  - intros f value. by apply Htransform.
  - intros name. by apply Hboolean.
Qed.

Lemma validateConfig_valid_createConfig_returns_witness :
  returns (createConfig (H := ES.builtins) Samples.appEnv Samples.app).
Proof.
  apply (validateConfig_valid_createConfig_returns (H := ES.builtins)
           Samples.appEnv Samples.app
           {| valid := true; errors := []; warnings := [] |}).
  - intros key varConfig f rawValue Hin Hf. exfalso.
    repeat (apply elem_of_cons in Hin as [[= -> ->]|Hin]; [discriminate Hf|]).
    by apply elem_of_nil in Hin.
  - intros key varConfig name Hin _ _.
    repeat (apply elem_of_cons in Hin as [[= -> ->]|Hin]; [by vm_compute|]).
    by apply elem_of_nil in Hin.
  - reflexivity.
  - reflexivity.
Defined.

(** A transform that throws, and a boolean rule whose variable is unset
    under the name of a member of [Object.prototype], make [createConfig]
    throw where [validateConfig] has nothing to report. *)
Example validateConfig_valid_createConfig_throws :
  validateConfig (H := ES.builtins) {[ "LIMIT" := "10" ]}
    {| vars := [("LIMIT", withTransform (Some (λ _, Throw "unexpected token")) Samples.plain)];
       prefix := None; strict := None |}
  = Return {| valid := true; errors := []; warnings := [] |}
  ∧ createConfig (H := ES.builtins) {[ "LIMIT" := "10" ]}
      {| vars := [("LIMIT", withTransform (Some (λ _, Throw "unexpected token")) Samples.plain)];
         prefix := None; strict := None |}
    = Throw "unexpected token"
  ∧ validateConfig (H := ES.builtins) ∅
      {| vars := [("toString", Samples.DEBUG)]; prefix := None; strict := None |}
    = Return {| valid := true; errors := []; warnings := [] |}
  ∧ createConfig (H := ES.builtins) ∅
      {| vars := [("toString", Samples.DEBUG)]; prefix := None; strict := None |}
    = Throw rawValueNotAFunction.
Proof. by vm_compute. Qed.

(** X12. When [strict] is not [false], no rule with a transform has type
    number or json, no transform throws and no boolean rule reads a member
    of [Object.prototype], the dry run is exact: [validateConfig] answers
    [valid = true] iff [createConfig] returns an object. *)
Theorem validateConfig_valid_iff_createConfig_returns `{Builtins} (env : Env)
    (config : EnvConfig) :
  strict config ≠ Some false →
  (∀ key varConfig, (key, varConfig) ∈ vars config → is_Some (transform varConfig) →
     type varConfig ≠ Some TNumber ∧ type varConfig ≠ Some TJson) →
  transformsReturn env config →
  booleansAreStrings env config →
  (∃ report, validateConfig env config = Return report ∧ valid report = true)
  ↔ returns (createConfig env config).
Proof.
  intros Hstrict Hbypass Htransform Hboolean.
  rewrite validateConfig_valid_clean, reports_clean. split.
  - intros Hclean. apply createConfig_loop_returns. intros k r Hin.
    destruct (Hclean (k, r) Hin) as (rep & Hrep & Hnone).
    eapply entryReport_clean_resolves; [| |done..].
    + intros f value. by apply Htransform.
    + intros name. by apply Hboolean.
  - intros [result Hresult] [k r] Hin.
    destruct (resolveVar env config k r) as [value|message] eqn:Hstep.
    + eapply resolveVar_Return_clean; eauto.
    + destruct (createConfig_loop_throws env config (vars config) ∅ k r message Hin Hstep)
        as [message' Hthrow].
      unfold createConfig in Hresult. congruence.
Qed.

Lemma validateConfig_valid_iff_createConfig_returns_witness :
  (∃ report, validateConfig (H := ES.builtins) {[ "APP_API_KEY" := "secret" ]} Samples.app
             = Return report ∧ valid report = true)
  ↔ returns (createConfig (H := ES.builtins) {[ "APP_API_KEY" := "secret" ]} Samples.app).
Proof.
  apply (validateConfig_valid_iff_createConfig_returns (H := ES.builtins)).
  - discriminate.
  - intros key varConfig Hin [f Hf]. exfalso.
    repeat (apply elem_of_cons in Hin as [[= -> ->]|Hin]; [discriminate Hf|]).
    by apply elem_of_nil in Hin.
  - intros key varConfig f rawValue Hin Hf. exfalso.
    repeat (apply elem_of_cons in Hin as [[= -> ->]|Hin]; [discriminate Hf|]).
    by apply elem_of_nil in Hin.
  - intros key varConfig name Hin _ _.
    repeat (apply elem_of_cons in Hin as [[= -> ->]|Hin]; [by vm_compute|]).
    by apply elem_of_nil in Hin.
Defined.

(** X13. [createConfig] is fail-fast in schema order: it returns an object
    iff the iteration of every entry resolves, and it throws [message] iff
    [message] is the error of the first entry whose iteration throws. *)
Theorem createConfig_fail_fast `{Builtins} (env : Env) (config : EnvConfig) :
  (returns (createConfig env config)
   ↔ ∀ key varConfig, (key, varConfig) ∈ vars config →
       returns (resolveVar env config key varConfig))
  ∧ (∀ message,
       createConfig env config = Throw message
       ↔ ∃ before key varConfig after,
           vars config = before ++ (key, varConfig) :: after
           ∧ (∀ k r, (k, r) ∈ before → returns (resolveVar env config k r))
           ∧ resolveVar env config key varConfig = Throw message).
Proof.
  split.
  - split; [|apply createConfig_loop_returns].
    intros [result Hresult] key varConfig Hin.
    destruct (resolveVar env config key varConfig) as [value|message] eqn:Hstep;
      [by exists value|].
    destruct (createConfig_loop_throws env config (vars config) ∅ _ _ _ Hin Hstep)
      as [message' Hthrow].
    unfold createConfig in Hresult. congruence.
  - intros message. split; [apply createConfig_loop_Throw|].
    intros (before & key & varConfig & after & Hvars & Hbefore & Hstep).
    unfold createConfig. rewrite Hvars. by apply createConfig_loop_first_failure.
Qed.

(** ** The object [createConfig] returns *)

Section ResultObject.
Context `{Builtins}.
Variable env : Env.


(** A read depends on the own value under the name only. *)
Lemma getProperty_env_ext (env' : Env) (name : string) :
  env !! name = env' !! name → getProperty env name = getProperty env' name.
Proof. intros Hagree. unfold getProperty. by rewrite Hagree. Qed.

(** The iteration of an entry reads the environment at the entry's variable
    only. *)
Lemma resolveVar_env_ext (env' : Env) config key varConfig :
  env !! envKeyOf config key = env' !! envKeyOf config key →
  resolveVar env config key varConfig = resolveVar env' config key varConfig.
Proof.
  intros Hagree%getProperty_env_ext. unfold resolveVar. by rewrite Hagree.
Qed.

Lemma entryReport_env_ext (env' : Env) config key varConfig :
  env !! envKeyOf config key = env' !! envKeyOf config key →
  entryReport env config (key, varConfig) = entryReport env' config (key, varConfig).
Proof.
  intros Hagree%getProperty_env_ext. unfold entryReport. by rewrite Hagree.
Qed.

Lemma createConfig_loop_env_ext (env' : Env) config entries result :
  (∀ k r, (k, r) ∈ entries → env !! envKeyOf config k = env' !! envKeyOf config k) →
  createConfig_loop env config entries result = createConfig_loop env' config entries result.
Proof.
  revert result. induction entries as [|[key varConfig] entries IH]; intros result Hagree.
  - done.
  - rewrite !createConfig_loop_cons,
      <- (resolveVar_env_ext env') by (apply (Hagree key varConfig); left).
    destruct (resolveVar env config key varConfig); [|done].
    apply IH. intros k r Hin. apply (Hagree k r). by right.
Qed.

Lemma reports_env_ext (env' : Env) config entries :
  (∀ k r, (k, r) ∈ entries → env !! envKeyOf config k = env' !! envKeyOf config k) →
  reports env config entries = reports env' config entries.
Proof.
  induction entries as [|[key varConfig] entries IH]; intros Hagree; [done|].
  cbn [reports].
  rewrite <- (entryReport_env_ext env') by (apply (Hagree key varConfig); left).
  rewrite IH; [done|]. intros k r Hin. apply (Hagree k r). by right.
Qed.

(** Of the schema, the iteration of an entry reads the prefix and the
    [strict] flag only. *)
Lemma resolveVar_config_ext config config' key varConfig :
  prefix config = prefix config' → strict config = strict config' →
  resolveVar env config key varConfig = resolveVar env config' key varConfig.
Proof.
  intros Hprefix Hstrict. unfold resolveVar, envKeyOf, prefixOf.
  by rewrite Hprefix, Hstrict.
Qed.

Lemma createConfig_loop_config_ext config config' entries result :
  prefix config = prefix config' → strict config = strict config' →
  createConfig_loop env config entries result = createConfig_loop env config' entries result.
Proof.
  intros Hprefix Hstrict. revert result.
  induction entries as [|[key varConfig] entries IH]; intros result; [done|].
  rewrite !createConfig_loop_cons, (resolveVar_config_ext config config') by done.
  destruct (resolveVar env config' key varConfig); [apply IH|done].
Qed.

(** The report of an entry reads the prefix only. *)
Lemma entryReport_config_ext config config' entry :
  prefix config = prefix config' →
  entryReport env config entry = entryReport env config' entry.
Proof.
  intros Hprefix. destruct entry as [k r]. unfold entryReport, envKeyOf, prefixOf.
  by rewrite Hprefix.
Qed.

Lemma reports_config_ext config config' entries :
  prefix config = prefix config' →
  reports env config entries = reports env config' entries.
Proof.
  intros Hprefix. induction entries as [|entry entries IH]; [done|].
  cbn [reports]. by rewrite IH, (entryReport_config_ext config config').
Qed.

(** The reports of the same entries in another order return as well, with
    the same messages up to order. *)
Lemma reports_Permutation config entries entries' rs :
  entries ≡ₚ entries' →
  reports env config entries = Return rs →
  ∃ rs', reports env config entries' = Return rs' ∧ rs.1 ≡ₚ rs'.1 ∧ rs.2 ≡ₚ rs'.2.
Proof.
  intros Hperm. revert rs.
  induction Hperm as [|entry l l' Hperm IH|a b l|l l' l'' _ IH1 _ IH2]; intros rs.
  - intros Hrs. by exists rs.
  - cbn [reports]. destruct (entryReport env config entry) as [r|]; [|discriminate].
    simpl. destruct (reports env config l) as [rest|] eqn:Hrest; [|discriminate].
    simpl. intros [= <-]. destruct (IH rest eq_refl) as (rest' & -> & Herrors & Hwarnings).
    eexists. split; [done|]. simpl. by rewrite Herrors, Hwarnings.
  - cbn [reports]. destruct (entryReport env config b) as [rb|]; [|discriminate].
    destruct (entryReport env config a) as [ra|]; [|discriminate]. simpl.
    destruct (reports env config l) as [rest|]; [|discriminate]. simpl.
    intros [= <-]. eexists. split; [done|]. simpl. split.
    + rewrite !app_assoc. f_equiv. apply Permutation_app_comm.
    + rewrite !app_assoc. f_equiv. apply Permutation_app_comm.
  - intros (rs' & Hrs' & Herrors & Hwarnings)%IH1.
    destruct (IH2 rs' Hrs') as (rs'' & Hrs'' & Herrors' & Hwarnings').
    exists rs''. split; [done|]. split; by etrans.
Qed.
End ResultObject.



(** X15. [createConfig] and [validateConfig] read the environment only at
    the actual names of the schema's keys: two environments that agree on
    those names give the same outcome and the same report. *)
Theorem createConfig_reads_schema_variables_only `{Builtins} (env env' : Env)
    (config : EnvConfig) :
  (∀ key varConfig, (key, varConfig) ∈ vars config →
     env !! envKeyOf config key = env' !! envKeyOf config key) →
  createConfig env config = createConfig env' config
  ∧ validateConfig env config = validateConfig env' config.
Proof.
  intros Hagree. split.
  - by apply createConfig_loop_env_ext.
  - by rewrite !validateConfig_reports, (reports_env_ext env env').
Qed.

Lemma createConfig_reads_schema_variables_only_witness :
  createConfig (H := ES.builtins) {[ "PORT" := "80"; "HOME" := "/root" ]} Samples.portOnly
  = createConfig (H := ES.builtins) {[ "PORT" := "80" ]} Samples.portOnly
  ∧ validateConfig (H := ES.builtins) {[ "PORT" := "80"; "HOME" := "/root" ]} Samples.portOnly
    = validateConfig (H := ES.builtins) {[ "PORT" := "80" ]} Samples.portOnly.
Proof.
  apply (createConfig_reads_schema_variables_only (H := ES.builtins)).
  intros key varConfig [[= -> ->]|Hin%elem_of_nil]%elem_of_cons; [reflexivity|done].
Defined.

(** ** Order of the schema entries *)

(** A schema with the same entries in another order returns the same
    object. *)
Lemma createConfig_reorder `{Builtins} (env : Env) (config config' : EnvConfig) result :
  wellFormed config →
  vars config ≡ₚ vars config' →
  prefix config = prefix config' →
  strict config = strict config' →
  createConfig env config = Return result →
  createConfig env config' = Return result.
Proof.
  intros Hwf Hperm Hprefix Hstrict Hresult.
  assert (wellFormed config') as Hwf'.
  { unfold wellFormed in *. by rewrite <- Hperm. }
  destruct (createConfig env config') as [result'|message] eqn:Hresult'.
  - f_equal. apply map_eq. intros k.
    destruct (decide (k ∈ (vars config).*1)) as [Hk|Hk].
    + apply list_elem_of_fmap in Hk as ([k' r] & -> & Hin). simpl.
      destruct (createConfig_loop_Return env config _ _ _ Hresult Hwf _ _ Hin)
        as (value & Hstep & ->).
      assert ((k', r) ∈ vars config') as Hin' by by rewrite <- Hperm.
      destruct (createConfig_loop_Return env config' _ _ _ Hresult' Hwf' _ _ Hin')
        as (value' & Hstep' & ->).
      rewrite (resolveVar_config_ext env config config') in Hstep by done. congruence.
    + rewrite (createConfig_loop_lookup_other env config _ _ _ _ Hresult Hk).
      rewrite (createConfig_loop_lookup_other env config' _ _ _ k Hresult'); [done|].
      by rewrite <- Hperm.
  - apply createConfig_loop_Throw in Hresult'
      as (before & key & varConfig & after & Hvars & _ & Hstep).
    assert ((key, varConfig) ∈ vars config) as Hin.
    { rewrite Hperm, Hvars. apply elem_of_app. right. left. }
    rewrite <- (resolveVar_config_ext env config config') in Hstep by done.
    destruct (createConfig_loop_throws env config (vars config) ∅ _ _ _ Hin Hstep)
      as [message' Hthrow].
    unfold createConfig in Hresult. congruence.
Qed.

(** A schema with the same entries in another order gives a report with
    the same messages up to order. *)
Lemma validateConfig_reorder `{Builtins} (env : Env) (config config' : EnvConfig) report :
  vars config ≡ₚ vars config' →
  prefix config = prefix config' →
  validateConfig env config = Return report →
  ∃ report', validateConfig env config' = Return report'
             ∧ errors report ≡ₚ errors report'
             ∧ warnings report ≡ₚ warnings report'
             ∧ valid report = valid report'.
Proof.
  intros Hperm Hprefix. rewrite !validateConfig_reports.
  rewrite <- (reports_config_ext env config config') by done.
  destruct (reports env config (vars config)) as [rs|] eqn:Hrs; [|discriminate].
  destruct (reports_Permutation env config _ _ rs Hperm Hrs)
    as (rs' & -> & Herrors & Hwarnings).
  simpl. intros [= <-]. eexists. split; [done|]. simpl. split_and!; [done..|].
  f_equal. by apply Permutation_length.
Qed.

(** X16. The order in which a schema lists its keys decides only which
    error [createConfig] or a validator throws: two schemas with the same
    entries, prefix and [strict] flag return the same objects, and their
    validation reports hold the same errors and warnings up to order, with
    the same [valid]. *)
Theorem createConfig_order_irrelevant `{Builtins} (env : Env) (config config' : EnvConfig) :
  wellFormed config →
  vars config ≡ₚ vars config' →
  prefix config = prefix config' →
  strict config = strict config' →
  (∀ result, createConfig env config = Return result
             ↔ createConfig env config' = Return result)
  ∧ (throws (createConfig env config) ↔ throws (createConfig env config'))
  ∧ (throws (validateConfig env config) ↔ throws (validateConfig env config'))
  ∧ (∀ report report',
       validateConfig env config = Return report →
       validateConfig env config' = Return report' →
       errors report ≡ₚ errors report'
       ∧ warnings report ≡ₚ warnings report'
       ∧ valid report = valid report').
Proof.
  intros Hwf Hperm Hprefix Hstrict.
  assert (wellFormed config') as Hwf'.
  { unfold wellFormed in *. by rewrite <- Hperm. }
  assert (∀ result, createConfig env config = Return result
                    ↔ createConfig env config' = Return result) as Hsame.
  { intros result. split; [by apply createConfig_reorder|].
    by apply createConfig_reorder. }
  split_and!; [done| | |].
  - split.
    + intros [message Hthrow].
      destruct (createConfig env config') as [result|message'] eqn:Hresult; [|by eexists].
      pose proof (proj2 (Hsame result) eq_refl). congruence.
    + intros [message Hthrow].
      destruct (createConfig env config) as [result|message'] eqn:Hresult; [|by eexists].
      pose proof (proj1 (Hsame result) eq_refl). congruence.
  - split.
    + intros [message Hthrow].
      destruct (validateConfig env config') as [report'|message'] eqn:Hreport';
        [|by eexists].
      destruct (validateConfig_reorder env config' config report')
        as (report & Hreport & _); [done..|]. congruence.
    + intros [message Hthrow].
      destruct (validateConfig env config) as [report|message'] eqn:Hreport;
        [|by eexists].
      destruct (validateConfig_reorder env config config' report)
        as (report' & Hreport' & _); [done..|]. congruence.
  - intros report report' Hreport Hreport'.
    destruct (validateConfig_reorder env config config' report)
      as (report'' & Hreport'' & Hsameness); [done..|]. congruence.
Qed.

Lemma createConfig_order_irrelevant_witness :
  createConfig (H := ES.builtins) Samples.appEnv
    {| vars := [("PORT", Samples.PORT); ("API_KEY", Samples.API_KEY);
                ("DEBUG", Samples.DEBUG); ("NETWORK", Samples.NETWORK)];
       prefix := Some "APP"; strict := Some true |}
  = Return {[ "API_KEY" := VString "secret"; "PORT" := VNumber 8080;
              "DEBUG" := VBool true; "NETWORK" := VString "testnet" ]}.
Proof.
  refine (proj1 (proj1 (createConfig_order_irrelevant (H := ES.builtins)
            Samples.appEnv Samples.app
            {| vars := [("PORT", Samples.PORT); ("API_KEY", Samples.API_KEY);
                        ("DEBUG", Samples.DEBUG); ("NETWORK", Samples.NETWORK)];
               prefix := Some "APP"; strict := Some true |} _ _ _ _) _) _).
  - unfold wellFormed. apply (bool_decide_unpack _). vm_compute. exact I.
  - simpl. apply perm_swap.
  - reflexivity.
  - reflexivity.
  - vm_compute. reflexivity.
Defined.

(** ** Schema rules and accessors *)

(** X17. For a variable that is set to a non-empty string, a rule with a
    type and neither validator nor transform resolves as the accessor of
    that type does without default: type number resolves to the number of
    [getEnvNumber] and aborts exactly when [getEnvNumber] has nothing to
    answer, type json likewise with [getEnvJson], and type boolean resolves
    to the boolean of [getEnvBoolean]. *)
Theorem resolveVar_agrees_with_accessors `{Builtins} (env : Env) (config : EnvConfig)
    (key : string) (varConfig : EnvVarConfig) (raw : string) :
  env !! envKeyOf config key = Some raw →
  raw ≠ "" →
  validator varConfig = None →
  transform varConfig = None →
  (type varConfig = Some TNumber →
     resolveVar env config key varConfig
     = match getEnvNumber env (envKeyOf config key) None with
       | Some num => Return (VNumber num)
       | None => Throw ("Invalid number for environment variable " +:+ envKeyOf config key)
       end)
  ∧ (type varConfig = Some TJson →
       resolveVar env config key varConfig
       = match getEnvJson env (envKeyOf config key) None with
         | Some parsed => Return parsed
         | None => Throw ("Invalid JSON for environment variable " +:+ envKeyOf config key)
         end)
  ∧ (type varConfig = Some TBoolean →
       ∀ defaultValue, ∃ b,
         getEnvBoolean env (envKeyOf config key) defaultValue = Return (Some b)
         ∧ resolveVar env config key varConfig = Return (VBool b)).
Proof.
  intros Hraw Hne Hvalidator Htransform.
  rewrite (resolveVar_present env config key varConfig (Own raw))
    by by apply present_own.
  unfold validatorRejects, getEnvNumber, getEnvJson, getEnvBoolean, getProperty.
  rewrite Hvalidator, Htransform, Hraw. simpl. unfold parseByType. split_and!.
  - intros ->. by destruct (PrimFloat.is_nan (parseFloat raw)).
  - intros ->. by destruct (JSON_parse raw).
  - intros -> defaultValue. by eexists.
Qed.

Lemma resolveVar_agrees_with_accessors_witness :
  resolveVar (H := ES.builtins) {[ "PORT" := "http" ]} Samples.portOnly "PORT" Samples.typedPort
  = match getEnvNumber (H := ES.builtins) {[ "PORT" := "http" ]}
            (envKeyOf Samples.portOnly "PORT") None with
    | Some num => Return (VNumber num)
    | None => Throw ("Invalid number for environment variable "
                     +:+ envKeyOf Samples.portOnly "PORT")
    end.
Proof.
  refine (proj1 (resolveVar_agrees_with_accessors (H := ES.builtins)
                   {[ "PORT" := "http" ]} Samples.portOnly "PORT" Samples.typedPort "http"
                   _ _ _ _) _).
  - reflexivity.
  - discriminate.
  - reflexivity.
  - reflexivity.
  - reflexivity.
Defined.

(** X18. A variable that is set to the empty string counts as unset for
    [createConfig] and as set for [getEnvBoolean] and [createFeatureFlags]:
    a boolean rule that is not required resolves to its default [b], while
    [getEnvBoolean] and the flag with the same default answer [false]. *)
Theorem empty_string_boolean `{Builtins} (env : Env) (config : EnvConfig)
    (key : string) (varConfig : EnvVarConfig) (b : bool) :
  env !! envKeyOf config key = Some "" →
  required varConfig ≠ Some true →
  default varConfig = Some (DBoolean b) →
  resolveVar env config key varConfig = Return (VBool b)
  ∧ getEnvBoolean env (envKeyOf config key) (Some b) = Return (Some false)
  ∧ flagValue env {| FlagSource.envKey := envKeyOf config key; FlagSource.default := b |}
    = Return false.
Proof.
  intros Hraw Hrequired Hdefault. split_and!.
  - rewrite (resolveVar_missing env config key varConfig) by by left.
    destruct (truthy (required varConfig)) eqn:Htruthy.
    + by apply truthy_true in Htruthy.
    + simpl. unfold defaultOrUndefined. by rewrite Hdefault.
  - unfold getEnvBoolean, getProperty. by rewrite Hraw.
  - unfold flagValue, getProperty. simpl. by rewrite Hraw.
Qed.

Lemma empty_string_boolean_witness :
  resolveVar (H := ES.builtins) {[ "APP_DEBUG" := "" ]} Samples.app "DEBUG"
    {| required := None; default := Some (DBoolean true); type := Some TBoolean;
       validator := None; transform := None |}
  = Return (VBool true)
  ∧ getEnvBoolean {[ "APP_DEBUG" := "" ]} (envKeyOf Samples.app "DEBUG") (Some true)
    = Return (Some false).
Proof.
  destruct (empty_string_boolean (H := ES.builtins) {[ "APP_DEBUG" := "" ]} Samples.app "DEBUG"
              {| required := None; default := Some (DBoolean true); type := Some TBoolean;
                 validator := None; transform := None |} true)
    as (Hconfig & Haccessor & _); [reflexivity | discriminate | reflexivity |].
  exact (conj Hconfig Haccessor).
Defined.



(** ** Actual variable names *)

(** X20. The actual name of a key is the key itself when the prefix is
    absent or empty, and the prefix, an underscore and the key otherwise;
    distinct keys have distinct actual names, so the entries of a schema
    read pairwise distinct variables; and a schema with the empty prefix
    behaves as the schema without prefix. *)
Theorem envKeyOf_distinct `{Builtins} (env : Env) (config : EnvConfig) :
  (prefix config = None ∨ prefix config = Some "" → ∀ key, envKeyOf config key = key)
  ∧ (∀ p, prefix config = Some p → p ≠ "" →
       ∀ key, envKeyOf config key = (p +:+ "_") +:+ key)
  ∧ (∀ k1 k2, envKeyOf config k1 = envKeyOf config k2 → k1 = k2)
  ∧ (wellFormed config → NoDup (envKeyOf config <$> (vars config).*1))
  ∧ (prefix config = Some "" →
       createConfig env config
       = createConfig env {| vars := vars config; prefix := None; strict := strict config |}).
Proof.
  split_and!.
  - intros [Hprefix|Hprefix] key; unfold envKeyOf, prefixOf; by rewrite Hprefix.
  - intros p Hprefix Hne%String.eqb_neq key. unfold envKeyOf, prefixOf.
    by rewrite Hprefix, Hne.
  - intros k1 k2. apply append_inj_l.
  - intros Hwf. apply NoDup_fmap_2; [|done]. intros k1 k2. apply append_inj_l.
  - intros Hprefix. unfold createConfig. simpl.
    set (config' := {| vars := vars config; prefix := None; strict := strict config |}).
    assert (∀ entries result,
              createConfig_loop env config entries result
              = createConfig_loop env config' entries result) as Hloop; [|apply Hloop].
    induction entries as [|[key varConfig] entries IH]; intros result; [done|].
    rewrite !createConfig_loop_cons.
    assert (resolveVar env config key varConfig = resolveVar env config' key varConfig) as <-.
    { unfold resolveVar, envKeyOf, prefixOf. by rewrite Hprefix. }
    destruct (resolveVar env config key varConfig); [apply IH|done].
Qed.

Lemma envKeyOf_distinct_witness :
  envKeyOf Samples.app "PORT" = ("APP" +:+ "_") +:+ "PORT"
  ∧ NoDup (envKeyOf Samples.app <$> (vars Samples.app).*1).
Proof.
  destruct (envKeyOf_distinct (H := ES.builtins) ∅ Samples.app) as (_ & Hprefix & _ & Hnodup & _).
  split.
  - apply (Hprefix "APP"); [reflexivity|discriminate].
  - apply Hnodup. unfold wellFormed. apply (bool_decide_unpack _). vm_compute. exact I.
Defined.

(** ** Shape of the validation report *)

Section Report.
Context `{Builtins}.
Variables (env : Env) (config : EnvConfig).

(** An entry reports at most two errors and one warning, and no error next
    to a warning. *)
Lemma entryReport_length entry r :
  entryReport env config entry = Return r →
  length r.1 ≤ 2 ∧ length r.2 ≤ 1 ∧ length r.1 + length r.2 ≤ 2.
Proof.
  destruct entry as [k varConfig]. unfold entryReport.
  destruct (present (getProperty env (envKeyOf config k))) as [value|].
  - destruct (validatorRejects varConfig value) as [rejected|]; [|discriminate].
    simpl. intros [= <-]. simpl.
    destruct rejected, (type varConfig) as [[]|]; simpl;
      repeat match goal with
             | |- context [notANumber ?x] => destruct (notANumber x)
             | |- context [notJson ?x] => destruct (notJson x)
             end; simpl; lia.
  - destruct (truthy (required varConfig)); [intros [= <-]; simpl; lia|].
    destruct (default varConfig); intros [= <-]; simpl; lia.
Qed.

Lemma reports_length entries rs :
  reports env config entries = Return rs →
  length rs.1 ≤ 2 * length entries
  ∧ length rs.2 ≤ length entries
  ∧ length rs.1 + length rs.2 ≤ 2 * length entries.
Proof.
  revert rs. induction entries as [|entry entries IH]; intros rs; simpl.
  - intros [= <-]. simpl. lia.
  - destruct (entryReport env config entry) as [r|] eqn:Hentry; [|discriminate]. simpl.
    destruct (reports env config entries) as [rest|]; [|discriminate]. simpl.
    intros [= <-]. simpl. rewrite !length_app.
    pose proof (entryReport_length entry r Hentry). pose proof (IH rest eq_refl). lia.
Qed.

(** An error of the report about a variable comes from the entry of that
    variable. *)
Lemma entryReport_error_about entry r key label :
  label ∈ ["Missing required: "; "Invalid value: "; "Invalid number: "; "Invalid JSON: "] →
  entryReport env config entry = Return r →
  (label +:+ envKeyOf config key) ∈ r.1 →
  entry.1 = key.
Proof.
  destruct entry as [k varConfig]. simpl. intros Hlabel Hentry Hmessage.
  assert (∀ label', label +:+ envKeyOf config key = label' +:+ envKeyOf config k →
                    label = label' → k = key) as Hsame.
  { intros label' Heq ->. apply append_inj_l in Heq. unfold envKeyOf in Heq.
    by apply append_inj_l in Heq. }
  unfold entryReport in Hentry.
  destruct (present (getProperty env (envKeyOf config k))) as [value|].
  - destruct (validatorRejects varConfig value) as [rejected|]; [|discriminate].
    simpl in Hentry. injection Hentry as <-. simpl in Hmessage.
    repeat (apply elem_of_cons in Hlabel as [->|Hlabel]);
      [..|by apply elem_of_nil in Hlabel];
      repeat match type of Hmessage with
             | _ ∈ [] => by apply elem_of_nil in Hmessage
             | _ ∈ [_] => apply list_elem_of_singleton in Hmessage
             | _ ∈ _ ++ _ => apply elem_of_app in Hmessage as [Hmessage|Hmessage]
             | _ ∈ (if ?c then _ else _) => destruct c
             | _ ∈ match ?c with _ => _ end => destruct c
             end;
      first [discriminate Hmessage | by eapply Hsame].
  - destruct (truthy (required varConfig)).
    + injection Hentry as <-. simpl in Hmessage.
      apply list_elem_of_singleton in Hmessage.
      repeat (apply elem_of_cons in Hlabel as [->|Hlabel]);
        [..|by apply elem_of_nil in Hlabel];
        first [discriminate Hmessage | by eapply Hsame].
    + destruct (default varConfig); injection Hentry as <-;
        by apply elem_of_nil in Hmessage.
Qed.
End Report.

(** X21. In the report of a schema without repeated key, a variable that has
    a warning has no error: a message "Optional not set" about a variable
    excludes each of the four error messages about the same variable. *)
Theorem validateConfig_warning_excludes_errors `{Builtins} (env : Env) (config : EnvConfig)
    (report : ConfigValidationResult) (key label : string) :
  wellFormed config →
  validateConfig env config = Return report →
  ("Optional not set: " +:+ envKeyOf config key) ∈ warnings report →
  label ∈ ["Missing required: "; "Invalid value: "; "Invalid number: "; "Invalid JSON: "] →
  (label +:+ envKeyOf config key) ∉ errors report.
Proof.
  intros Hwf. rewrite validateConfig_reports.
  destruct (reports env config (vars config)) as [[es ws]|] eqn:Hrs; [|discriminate].
  simpl. intros [= <-]. simpl. intros Hwarning Hlabel Herror.
  apply reports_Return in Hrs as (_ & Herrors & Hwarnings).
  destruct (Hwarnings _ Hwarning) as ([k r] & rep & Hin & Hrep & Hmessage).
  destruct (entryReport_warning env config _ _ _ Hrep Hmessage) as (Hk & Hnone & _).
  simpl in Hk. subst k.
  destruct (Herrors _ Herror) as ([k' r'] & rep' & Hin' & Hrep' & Hmessage').
  pose proof (entryReport_error_about env config _ _ _ _ Hlabel Hrep' Hmessage') as Hkey.
  simpl in Hkey. subst k'.
  rewrite (NoDup_fst_unique _ _ _ _ Hwf Hin' Hin) in Hrep'.
  assert (rep' = rep) as -> by congruence.
  rewrite Hnone in Hmessage'. by apply elem_of_nil in Hmessage'.
Qed.

Lemma validateConfig_warning_excludes_errors_witness :
  ("Invalid value: " +:+ envKeyOf Samples.portOnly "PORT")
    ∉ errors {| valid := true; errors := []; warnings := ["Optional not set: PORT"] |}.
Proof.
  apply (validateConfig_warning_excludes_errors (H := ES.builtins) ∅
           {| vars := [("PORT", Samples.plain)]; prefix := None; strict := None |}
           {| valid := true; errors := []; warnings := ["Optional not set: PORT"] |}
           "PORT" "Invalid value: ").
  - unfold wellFormed. apply (bool_decide_unpack _). vm_compute. exact I.
  - reflexivity.
  - left.
  - right. left.
Defined.

(** X22. The report [validateConfig] returns holds at most two errors and at
    most one warning per schema entry, and at most two messages per entry
    in all. *)
Theorem validateConfig_report_size `{Builtins} (env : Env) (config : EnvConfig)
    (report : ConfigValidationResult) :
  validateConfig env config = Return report →
  length (errors report) ≤ 2 * length (vars config)
  ∧ length (warnings report) ≤ length (vars config)
  ∧ length (errors report) + length (warnings report) ≤ 2 * length (vars config).
Proof.
  rewrite validateConfig_reports.
  destruct (reports env config (vars config)) as [rs|] eqn:Hrs; [|discriminate].
  simpl. intros [= <-]. simpl. exact (reports_length env config _ _ Hrs).
Qed.

Lemma validateConfig_report_size_witness :
  length ["Missing required: APP_API_KEY"; "Missing required: APP_NETWORK"]
    ≤ 2 * length (vars Samples.app)
  ∧ length (@nil string) ≤ length (vars Samples.app)
  ∧ length ["Missing required: APP_API_KEY"; "Missing required: APP_NETWORK"]
    + length (@nil string) ≤ 2 * length (vars Samples.app).
Proof.
  apply (validateConfig_report_size (H := ES.builtins) ∅ Samples.app
           {| valid := false;
              errors := ["Missing required: APP_API_KEY"; "Missing required: APP_NETWORK"];
              warnings := [] |}).
  reflexivity.
Defined.

(** X23. [validateConfig] looks neither at the [strict] flag nor at the
    transforms: changing the flag and replacing, removing or adding
    transforms in the rules leaves the whole report unchanged. *)
Theorem validateConfig_ignores_strict_and_transforms `{Builtins} (env : Env)
    (config : EnvConfig) (flag : option bool)
    (f : string → EnvVarConfig → option (EnvValue → Completion JsValue)) :
  validateConfig env (withStrictAndTransforms flag f config) = validateConfig env config.
Proof.
  rewrite !validateConfig_reports. simpl.
  assert (reports env (withStrictAndTransforms flag f config)
            ((λ entry, (entry.1, withTransform (f entry.1 entry.2) entry.2)) <$> vars config)
          = reports env config (vars config)) as ->; [|done].
  induction (vars config) as [|[k r] entries IH]; [done|].
  rewrite fmap_cons. cbn [reports]. by rewrite IH.
Qed.
